(** * carlosb::object_pool — a shallow embedding of [object_pool.hpp]

    The pool core ([object_pool::impl]) lives behind a [std::shared_ptr];
    front-end handles and acquired objects alias it.  The embedding therefore
    keeps every core in one shared store ([pools]), addressed by the identity
    of the [shared_ptr], and every method is a computation over that store.

    Conventions
    - [size_type] is a 64-bit unsigned integer: an [N] whose arithmetic wraps
      at [2^64] ([size_mul], [size_incr], [size_sub]).
    - [_Tp*] is an address, [0] being [nullptr].
    - [std::stack<_Tp*>] is a list whose head is the top.
    - the effects on raw memory ([allocate], placement [new], destructor
      calls) and on the condition variable are recorded, in order, in [log].
    - a critical section guarded by [m_pool_mutex] is one atomic computation;
      the only place where other threads run is inside a wait on the
      condition variable ([cv_wait], [cv_wait_for]). *)

From stdpp Require Import base numbers list gmap strings.

Local Open Scope N_scope.

(** ** Machine integers and addresses *)

Definition size_type := N.
Definition size_modulus : N := 2 ^ 64.
Definition SIZE_MAX : N := size_modulus - 1.
Definition INT_MAX : N := 2 ^ 31 - 1.

Definition size_wrap (n : N) : size_type := n mod size_modulus.
Definition size_mul (a b : size_type) : size_type := size_wrap (a * b).
Definition size_incr (a : size_type) : size_type := size_wrap (a + 1).
Definition size_sub (a b : size_type) : size_type :=
  Z.to_N ((Z.of_N a - Z.of_N b) mod Z.of_N size_modulus).

Definition pointer := N.
Definition nullptr : pointer := 0.
Definition pool_id := N.

Definition stack_size (s : list pointer) : size_type := N.of_nat (length s).
Definition stack_empty (s : list pointer) : bool :=
  match s with
  | [] => true
  | _ :: _ => false
  end.

(** ** Results of a computation *)

Inductive exception :=
| logic_error (what : string).

Inductive outcome (A : Type) :=
| Ok (a : A)              (* normal return *)
| Throw (e : exception)   (* a C++ exception leaves the call *)
| AssertFail              (* [assert] aborted the program *)
| Undefined               (* undefined behaviour, e.g. [top()] of an empty stack *)
| Blocked.                (* the thread waits forever *)
Arguments Ok {A} a.
Arguments Throw {A} e.
Arguments AssertFail {A}.
Arguments Undefined {A}.
Arguments Blocked {A}.

(** ** acquired_object: the data of a handle (lines 916-919) *)

Record acquired_object := AcquiredObject {
  m_obj : pointer;
  m_pool : option pool_id;       (* std::shared_ptr<impl>, [None] when null *)
  m_is_initialized : bool
}.

Section Pool.

Context {T : Type} {Alloc : Type}.
(** [_Tp()], [_Allocator()] and the content of a pointer member that a
    constructor leaves uninitialised. *)
Variable T_default : T.
Variable Alloc_default : Alloc.
Variable indeterminate : pointer.

(** ** The pool core (lines 773-781) *)

Record impl := Impl {
  m_managed_count : size_type;
  m_capacity : size_type;
  m_allocator : Alloc;
  m_allocated_space : list pointer;
  m_free_objects : list pointer
}.

Inductive event :=
| EvAllocate (a : Alloc) (p : pointer)   (* a.allocate(1) returned p *)
| EvConstruct (p : pointer) (v : T)      (* ::new((void* ) p) _Tp(v) *)
| EvDestroy (p : pointer)                (* p->~_Tp() *)
| EvNotifyOne (pool : pool_id).          (* m_objects_availabe.notify_one() *)

Record world := World {
  pools : gmap pool_id impl;
  next_pool : pool_id;         (* where std::make_shared puts the next core *)
  next_addr : positive;        (* the next address an allocator hands out *)
  log : list event
}.

(** ** The monad of pool computations *)

Definition M (A : Type) : Type := world → outcome (A * world).

Definition ret {A} (a : A) : M A := λ w, Ok (a, w).

Definition bind {A B} (m : M A) (k : A → M B) : M B := λ w,
  match m w with
  | Ok (a, w') => k a w'
  | Throw e => Throw e
  | AssertFail => AssertFail
  | Undefined => Undefined
  | Blocked => Blocked
  end.

Notation "x <- m ;; k" := (bind m (λ x, k))
  (at level 100, m at next level, right associativity).
Notation "m ;;; k" := (bind m (λ _, k))
  (at level 100, right associativity).

Definition undefined {A} : M A := λ _, Undefined.
Definition blocked {A} : M A := λ _, Blocked.
Definition assert (b : bool) : M unit := λ w, if b then Ok (tt, w) else AssertFail.

Definition emit (e : event) : M unit := λ w,
  Ok (tt, World (pools w) (next_pool w) (next_addr w) (log w ++ [e])).

(** [this->field] and [this->field = x]; a dangling [this] is undefined. *)
Definition get_impl (this : pool_id) : M impl := λ w,
  match pools w !! this with
  | Some p => Ok (p, w)
  | None => Undefined
  end.

Definition put_impl (this : pool_id) (p : impl) : M unit := λ w,
  Ok (tt, World (<[this := p]> (pools w)) (next_pool w) (next_addr w) (log w)).

Definition modify_impl (this : pool_id) (f : impl → impl) : M unit :=
  p <- get_impl this ;; put_impl this (f p).

Definition set_managed_count (n : size_type) (p : impl) : impl :=
  Impl n (m_capacity p) (m_allocator p) (m_allocated_space p) (m_free_objects p).
Definition set_capacity (n : size_type) (p : impl) : impl :=
  Impl (m_managed_count p) n (m_allocator p) (m_allocated_space p) (m_free_objects p).
Definition set_allocator (a : Alloc) (p : impl) : impl :=
  Impl (m_managed_count p) (m_capacity p) a (m_allocated_space p) (m_free_objects p).
Definition set_allocated_space (s : list pointer) (p : impl) : impl :=
  Impl (m_managed_count p) (m_capacity p) (m_allocator p) s (m_free_objects p).
Definition set_free_objects (s : list pointer) (p : impl) : impl :=
  Impl (m_managed_count p) (m_capacity p) (m_allocator p) (m_allocated_space p) s.

(** [m_allocator.allocate(1)]: a fresh, non-null address.  Exhaustion of
    memory ([std::bad_alloc]) is not modelled. *)
Definition allocate1 (this : pool_id) : M pointer :=
  p <- get_impl this ;;
  λ w, let a := Npos (next_addr w) in
       Ok (a, World (pools w) (next_pool w) (Pos.succ (next_addr w))
                    (log w ++ [EvAllocate (m_allocator p) a])).

(** [std::stack]: [top()] and [pop()] of an empty stack are undefined. *)
Definition free_top (this : pool_id) : M pointer :=
  p <- get_impl this ;;
  match m_free_objects p with
  | [] => undefined
  | o :: _ => ret o
  end.

Definition free_pop (this : pool_id) : M unit :=
  p <- get_impl this ;;
  match m_free_objects p with
  | [] => undefined
  | _ :: rest => put_impl this (set_free_objects rest p)
  end.

Definition free_push (this : pool_id) (o : pointer) : M unit :=
  modify_impl this (λ p, set_free_objects (o :: m_free_objects p) p).

Definition space_top (this : pool_id) : M pointer :=
  p <- get_impl this ;;
  match m_allocated_space p with
  | [] => undefined
  | o :: _ => ret o
  end.

Definition space_pop (this : pool_id) : M unit :=
  p <- get_impl this ;;
  match m_allocated_space p with
  | [] => undefined
  | _ :: rest => put_impl this (set_allocated_space rest p)
  end.

Definition space_push (this : pool_id) (o : pointer) : M unit :=
  modify_impl this (λ p, set_allocated_space (o :: m_allocated_space p) p).

Definition notify_one (this : pool_id) : M unit := emit (EvNotifyOne this).

(** ** impl::return_object (lines 703-709) *)

Definition return_object (this : pool_id) (obj : pointer) : M unit :=
  assert (negb (obj =? nullptr)) ;;;
  free_push this obj ;;;
  notify_one this.

(** ** deleter (lines 790-807): [m_pool_ptr.lock()] succeeds while the core
    is in the store *)

Definition weak_lock (m_pool_ptr : option pool_id) : M (option pool_id) := λ w,
  match m_pool_ptr with
  | Some id => Ok (match pools w !! id with Some _ => Some id | None => None end, w)
  | None => Ok (None, w)
  end.

Definition deleter_call (m_pool_ptr : option pool_id) (ptr : pointer) : M unit :=
  if negb (ptr =? nullptr) then
    pool <- weak_lock m_pool_ptr ;;
    match pool with
    | Some id => return_object id ptr
    | None => ret tt
    end
  else ret tt.

(** ** acquired_object (lines 814-920) *)

Definition acquired_object_default : acquired_object :=
  AcquiredObject indeterminate None false.

Definition acquired_object_none : acquired_object :=
  AcquiredObject indeterminate None false.

Definition acquired_object_nullptr : acquired_object :=
  AcquiredObject indeterminate None false.

Definition acquired_object_ctor (obj : pointer) (lender : pool_id) : M acquired_object :=
  assert (negb (obj =? nullptr)) ;;;
  ret (AcquiredObject obj (Some lender) true).

(** Move construction: the new handle and what is left of [other]. *)
Definition acquired_object_move (other : acquired_object)
  : acquired_object * acquired_object :=
  (AcquiredObject (m_obj other) (m_pool other) (m_is_initialized other),
   AcquiredObject nullptr None false).

(** Move assignment [self = std::move(other)] between two distinct handles,
    given by value: the new [self] and what is left of [other].  The
    operator on references, which may designate one handle, is
    [operator_move_assign]. *)
Definition acquired_object_assign (self other : acquired_object)
  : M (acquired_object * acquired_object) :=
  (if m_is_initialized self then deleter_call (m_pool self) (m_obj self) else ret tt) ;;;
  ret (AcquiredObject (m_obj other) (m_pool other) (m_is_initialized other),
       AcquiredObject nullptr None false).

(** [self = none]. *)
Definition acquired_object_assign_none (self : acquired_object) : M acquired_object :=
  (if m_is_initialized self then deleter_call (m_pool self) (m_obj self) else ret tt) ;;;
  ret (AcquiredObject nullptr None false).

Definition acquired_object_dtor (self : acquired_object) : M unit :=
  if m_is_initialized self then deleter_call (m_pool self) (m_obj self) else ret tt.

(** [operator*] yields the lvalue [*m_obj], denoted by its address. *)
Definition operator_star (self : acquired_object) : outcome pointer :=
  if negb (m_is_initialized self)
  then Throw (logic_error
    "acquired_object::operator*(): Initialization is required for data access.")
  else Ok (m_obj self).

Definition operator_arrow (self : acquired_object) : outcome pointer :=
  if negb (m_is_initialized self)
  then Throw (logic_error
    "acquired_object::operator->(): Initialization is required for data access.")
  else Ok (m_obj self).

Definition eq_none (self : acquired_object) : bool := negb (m_is_initialized self).
Definition neq_none (self : acquired_object) : bool := negb (eq_none self).
Definition acquired_object_bool (self : acquired_object) : bool := m_is_initialized self.

(** [return std::move(obj);]: the result is move-constructed from the local
    [obj], whose destructor then runs. *)
Definition return_moved (obj : acquired_object) : M acquired_object :=
  let '(result, obj') := acquired_object_move obj in
  acquired_object_dtor obj' ;;;
  ret result.

(** ** impl::acquire (lines 535-544) *)

Definition acquire (this : pool_id) : M acquired_object :=
  p <- get_impl this ;;
  if stack_empty (m_free_objects p) then ret acquired_object_none
  else
    top <- free_top this ;;
    obj <- acquired_object_ctor top this ;;
    free_pop this ;;;
    return_moved obj.

(** ** Waiting on [m_objects_availabe]

    While a thread waits, the mutex is released and other threads run.  What
    they do before each wake-up of the waiting thread (a notification or a
    spurious wake-up) is one entry of [wakeups]; [at_expiry] is what they do
    between the last wake-up and the expiry of the time limit. *)

Record schedule := Schedule {
  wakeups : list (M unit);
  at_expiry : M unit
}.

(** [wait(lock, pred)]: [while (!pred()) wait(lock);] *)
Fixpoint cv_wait (pred : M bool) (rounds : list (M unit)) : M unit :=
  b <- pred ;;
  if b then ret tt
  else match rounds with
       | [] => blocked
       | others :: rest => others ;;; cv_wait pred rest
       end.

(** [wait_for(lock, rel_time, pred)]:
    [while (!pred()) if (wait_until(lock, t) == cv_status::timeout) return pred();
     return true;] *)
Fixpoint cv_wait_for (pred : M bool) (rounds : list (M unit)) (expiry : M unit)
  : M bool :=
  b <- pred ;;
  if b then ret true
  else match rounds with
       | [] => expiry ;;; pred
       | others :: rest => others ;;; cv_wait_for pred rest expiry
       end.

Definition free_objects_empty (this : pool_id) : M bool :=
  p <- get_impl this ;; ret (stack_empty (m_free_objects p)).

(** ** impl::acquire_wait (lines 546-575) *)

Definition acquire_wait (env : schedule) (this : pool_id) (time_limit : Z)
  : M acquired_object :=
  let obj := acquired_object_default in
  obj <-
    (if (time_limit =? 0)%Z then
       cv_wait (e <- free_objects_empty this ;; ret (negb e)) (wakeups env) ;;;
       top <- free_top this ;;
       tmp <- acquired_object_ctor top this ;;
       r <- acquired_object_assign obj tmp ;;
       acquired_object_dtor (snd r) ;;;
       free_pop this ;;;
       ret (fst r)
     else
       timed_out <- cv_wait_for (free_objects_empty this) (wakeups env) (at_expiry env) ;;
       if timed_out then acquired_object_assign_none obj
       else
         top <- free_top this ;;
         tmp <- acquired_object_ctor top this ;;
         r <- acquired_object_assign obj tmp ;;
         acquired_object_dtor (snd r) ;;;
         free_pop this ;;;
         ret (fst r)) ;;
  notify_one this ;;;
  return_moved obj.

(** ** Storage growth *)

(** The loop body shared by the default constructor, [reserve] and
    [reallocate]: [m_allocated_space.push(m_allocator.allocate(1))]. *)
Fixpoint allocate_slots (n : nat) (this : pool_id) : M unit :=
  match n with
  | O => ret tt
  | S n' =>
      a <- allocate1 this ;;
      space_push this a ;;;
      allocate_slots n' this
  end.

(** impl::reallocate (lines 766-771) *)
Definition reallocate (this : pool_id) (new_cap : size_type) : M unit :=
  p <- get_impl this ;;
  allocate_slots (N.to_nat (new_cap - m_capacity p)) this ;;;
  modify_impl this (set_capacity new_cap).

(** impl::reserve (lines 523-533).  The loop counter is an [int]: beyond
    [INT_MAX] the narrowing of [m_capacity] or the overflow of [++i] leaves
    the language's defined behaviour. *)
Definition reserve (this : pool_id) (new_cap : size_type) : M unit :=
  p <- get_impl this ;;
  if m_capacity p <? new_cap then
    if new_cap <=? INT_MAX then
      allocate_slots (N.to_nat (new_cap - m_capacity p)) this ;;;
      modify_impl this (set_capacity new_cap)
    else undefined
  else ret tt.

Definition construct (obj : pointer) (v : T) : M unit := emit (EvConstruct obj v).
Definition destroy (obj : pointer) : M unit := emit (EvDestroy obj).

(** ** impl::allocate (lines 577-595) *)

Definition allocate (v : T) (this : pool_id) : M acquired_object :=
  p <- get_impl this ;;
  if stack_empty (m_free_objects p) then
    obj <- allocate1 this ;;
    construct obj v ;;;
    modify_impl this (λ p, set_managed_count (size_incr (m_managed_count p)) p) ;;;
    acquired_object_ctor obj this
  else
    top <- free_top this ;;
    obj <- acquired_object_ctor top this ;;
    free_pop this ;;;
    return_moved obj.

(** ** impl::push, both overloads, and impl::emplace (lines 598-639) *)

Definition push (value : T) (this : pool_id) : M unit :=
  p <- get_impl this ;;
  (if m_managed_count p =? m_capacity p
   then reallocate this (size_mul (m_capacity p) 2) else ret tt) ;;;
  obj <- space_top this ;;
  space_pop this ;;;
  construct obj value ;;;
  free_push this obj ;;;
  modify_impl this (λ p, set_managed_count (size_incr (m_managed_count p)) p) ;;;
  notify_one this.

Definition push_move (value : T) (this : pool_id) : M unit :=
  p <- get_impl this ;;
  (if m_managed_count p =? m_capacity p
   then reallocate this (size_mul (m_capacity p) 2) else ret tt) ;;;
  obj <- space_top this ;;
  space_pop this ;;;
  construct obj value ;;;
  free_push this obj ;;;
  modify_impl this (λ p, set_managed_count (size_incr (m_managed_count p)) p) ;;;
  notify_one this.

(** [args] is given by the object [_Tp(args...)] it constructs. *)
Definition emplace (args : T) (this : pool_id) : M unit :=
  p <- get_impl this ;;
  (if m_managed_count p =? m_capacity p
   then reallocate this (size_mul (m_capacity p) 2) else ret tt) ;;;
  obj <- space_top this ;;
  space_pop this ;;;
  construct obj args ;;;
  free_push this obj ;;;
  modify_impl this (λ p, set_managed_count (size_incr (m_managed_count p)) p) ;;;
  notify_one this.

(** ** impl::resize, both overloads (lines 641-701) *)

Fixpoint resize_grow (n : nat) (v : T) (this : pool_id) : M unit :=
  match n with
  | O => ret tt
  | S n' =>
      obj <- space_top this ;;
      space_pop this ;;;
      construct obj v ;;;
      free_push this obj ;;;
      resize_grow n' v this
  end.

Fixpoint resize_shrink (n : nat) (this : pool_id) : M unit :=
  match n with
  | O => ret tt
  | S n' =>
      top <- free_top this ;;
      destroy top ;;;
      top' <- free_top this ;;
      space_push this top' ;;;
      free_pop this ;;;
      resize_shrink n' this
  end.

Definition resize (count : size_type) (this : pool_id) : M unit :=
  p <- get_impl this ;;
  let size := stack_size (m_free_objects p) in
  (if size <? count then
     (if m_capacity p <? count then reallocate this count else ret tt) ;;;
     resize_grow (N.to_nat (count - size)) T_default this
   else
     resize_shrink (N.to_nat (size - count)) this) ;;;
  modify_impl this (set_managed_count count).

Definition resize_value (count : size_type) (value : T) (this : pool_id) : M unit :=
  p <- get_impl this ;;
  let size := stack_size (m_free_objects p) in
  (if size <? count then
     (if m_capacity p <? count then reallocate this count else ret tt) ;;;
     resize_grow (N.to_nat (count - size)) value this
   else
     resize_shrink (N.to_nat (size - count)) this) ;;;
  modify_impl this (set_managed_count count).

(** ** Introspection (lines 717-751) *)

Definition size (this : pool_id) : M size_type :=
  p <- get_impl this ;; ret (stack_size (m_free_objects p)).

Definition managed_count (this : pool_id) : M size_type :=
  p <- get_impl this ;; ret (m_managed_count p).

Definition capacity (this : pool_id) : M size_type :=
  p <- get_impl this ;; ret (m_capacity p).

Definition in_use (this : pool_id) : M bool :=
  p <- get_impl this ;;
  ret (0 <? size_sub (m_managed_count p) (stack_size (m_free_objects p))).

Definition empty (this : pool_id) : M bool :=
  p <- get_impl this ;; ret (stack_empty (m_free_objects p)).

Definition impl_bool (this : pool_id) : M bool :=
  n <- size this ;; ret (0 <? n).

(** ** impl::swap (lines 753-763).  Both mutexes are locked: with
    [this == &other] the second lock is taken by the thread that already
    owns it, which [std::mutex] leaves undefined. *)

Definition swap (this other : pool_id) : M unit :=
  if this =? other then undefined
  else
    a <- get_impl this ;; b <- get_impl other ;;
    put_impl this (set_managed_count (m_managed_count b) a) ;;;
    put_impl other (set_managed_count (m_managed_count a) b) ;;;
    a <- get_impl this ;; b <- get_impl other ;;
    put_impl this (set_capacity (m_capacity b) a) ;;;
    put_impl other (set_capacity (m_capacity a) b) ;;;
    a <- get_impl this ;; b <- get_impl other ;;
    put_impl this (set_free_objects (m_free_objects b) a) ;;;
    put_impl other (set_free_objects (m_free_objects a) b) ;;;
    a <- get_impl this ;; b <- get_impl other ;;
    put_impl this (set_allocator (m_allocator b) a) ;;;
    put_impl other (set_allocator (m_allocator a) b).

(** ** Constructors of the core (lines 466-504) and of the front end
    (lines 149-183) *)

(** [std::make_shared<impl>(...)]: the core is placed in the store with its
    member initialisers applied, then the constructor body runs on it. *)
Definition make_shared (init : impl) (body : pool_id → M unit) : M pool_id :=
  this <- (λ w, Ok (next_pool w,
                    World (<[next_pool w := init]> (pools w)) (N.succ (next_pool w))
                          (next_addr w) (log w))) ;;
  body this ;;;
  ret this.

Definition impl_new (alloc : Alloc) : M pool_id :=
  make_shared (Impl 0 4 alloc [] [])
    (λ this, p <- get_impl this ;; allocate_slots (N.to_nat (m_capacity p)) this).

Fixpoint construct_objects (n : nat) (v : T) (this : pool_id) : M unit :=
  match n with
  | O => ret tt
  | S n' =>
      obj <- allocate1 this ;;
      construct obj v ;;;
      free_push this obj ;;;
      construct_objects n' v this
  end.

Definition impl_new_count_value (count : size_type) (value : T) (alloc : Alloc)
  : M pool_id :=
  make_shared (Impl count count alloc [] [])
    (λ this, p <- get_impl this ;;
             construct_objects (N.to_nat (m_managed_count p)) value this).

Definition impl_new_count (count : size_type) (alloc : Alloc) : M pool_id :=
  make_shared (Impl count count alloc [] [])
    (λ this, p <- get_impl this ;;
             construct_objects (N.to_nat (m_managed_count p)) T_default this).

(** The front end holds [m_pool], the [shared_ptr] to the core, and forwards
    every call to it: [pool.f(x)] is [f x m_pool]. *)
Definition object_pool_default : M pool_id := impl_new Alloc_default.
Definition object_pool_alloc (alloc : Alloc) : M pool_id := impl_new alloc.
Definition object_pool_count_value (count : size_type) (value : T) (alloc : Alloc)
  : M pool_id := impl_new_count_value count value alloc.
Definition object_pool_count (count : size_type) (alloc : Alloc) : M pool_id :=
  impl_new_count count alloc.

(** ** impl::get_allocator (lines 711-715) *)

Definition get_allocator (this : pool_id) : M Alloc :=
  p <- get_impl this ;; ret (m_allocator p).

(** ** impl::~impl (lines 506-521)

    Each iteration of either loop pops one element of its stack and pushes
    none, so a loop runs once per element the stack holds when it starts.
    What [m_allocator.deallocate] is called on is returned, in the order of
    the calls. *)

Fixpoint dtor_release_objects (n : nat) (this : pool_id) : M unit :=
  match n with
  | O => ret tt
  | S n' =>
      top <- free_top this ;;
      destroy top ;;;
      top' <- free_top this ;;
      space_push this top' ;;;
      free_pop this ;;;
      dtor_release_objects n' this
  end.

Fixpoint dtor_release_slots (n : nat) (this : pool_id) : M (list pointer) :=
  match n with
  | O => ret []
  | S n' =>
      top <- space_top this ;;
      space_pop this ;;;
      deallocated <- dtor_release_slots n' this ;;
      ret (top :: deallocated)
  end.

Definition impl_dtor (this : pool_id) : M (list pointer) :=
  p <- get_impl this ;;
  dtor_release_objects (length (m_free_objects p)) this ;;;
  p <- get_impl this ;;
  dtor_release_slots (length (m_allocated_space p)) this.

(** ** acquired_object::operator=(acquired_object&&) on references
    (lines 850-864)

    The operator receives two references, which may designate the same
    handle ([h = std::move(h)]).  Handles are kept in a store; every member
    assignment reads and writes through the references, in the order of the
    source.  The move assignment of the [shared_ptr] member is
    [shared_ptr(std::move(other.m_pool)).swap(m_pool)].
    [acquired_object_assign] above is the operator on two distinct handles
    given by value. *)

Definition handle_ref := N.

Definition set_m_obj (o : pointer) (h : acquired_object) : acquired_object :=
  AcquiredObject o (m_pool h) (m_is_initialized h).
Definition set_m_pool (pool : option pool_id) (h : acquired_object) : acquired_object :=
  AcquiredObject (m_obj h) pool (m_is_initialized h).
Definition set_m_is_initialized (b : bool) (h : acquired_object) : acquired_object :=
  AcquiredObject (m_obj h) (m_pool h) b.

Definition assign_members (this other : handle_ref)
    (hs : gmap handle_ref acquired_object) : option (gmap handle_ref acquired_object) :=
  o ← hs !! other;
  let hs := alter (set_m_obj (m_obj o)) this hs in
  o ← hs !! other;
  let hs := alter (set_m_is_initialized (m_is_initialized o)) this hs in
  let hs := alter (set_m_obj nullptr) other hs in
  let hs := alter (set_m_is_initialized false) other hs in
  o ← hs !! other;
  let moved := m_pool o in
  let hs := alter (set_m_pool None) other hs in
  Some (alter (set_m_pool moved) this hs).

Definition operator_move_assign (this other : handle_ref)
    (hs : gmap handle_ref acquired_object) : M (gmap handle_ref acquired_object) :=
  match hs !! this with
  | None => undefined
  | Some self =>
      (if m_is_initialized self then deleter_call (m_pool self) (m_obj self)
       else ret tt) ;;;
      match assign_members this other hs with
      | Some hs' => ret hs'
      | None => undefined
      end
  end.

(** ** Vocabulary of the statements *)

(** The [n] addresses handed out by [n] successive allocations starting at
    [a], in the order of the calls, and the allocator's next address after
    them. *)
Fixpoint fresh_addrs (n : nat) (a : positive) : list pointer :=
  match n with
  | O => []
  | S n' => Npos a :: fresh_addrs n' (Pos.succ a)
  end.

Fixpoint advance (n : nat) (a : positive) : positive :=
  match n with
  | O => a
  | S n' => advance n' (Pos.succ a)
  end.

(** The bookkeeping invariant as the specification words it, and the
    accounting of the arena that makes it inductive: every slot on the stack
    of uninitialised storage is capacity not yet used by a managed object,
    and neither stack holds a null pointer. *)
Definition claimed_invariant (p : impl) : Prop :=
  0 ≤ stack_size (m_free_objects p)
  ∧ stack_size (m_free_objects p) ≤ m_managed_count p
  ∧ m_managed_count p ≤ m_capacity p.

Definition nonnull_stack (s : list pointer) : Prop := Forall (λ o, o ≠ nullptr) s.

Definition pool_invariant (p : impl) : Prop :=
  stack_size (m_free_objects p) ≤ m_managed_count p
  ∧ m_managed_count p + stack_size (m_allocated_space p) ≤ m_capacity p
  ∧ m_capacity p < size_modulus
  ∧ nonnull_stack (m_free_objects p)
  ∧ nonnull_stack (m_allocated_space p).

(** What another thread does while this one waits keeps the invariant of
    the pool. *)
Definition preserves (this : pool_id) (others : M unit) : Prop :=
  ∀ (w w' : world) (p : impl),
    pools w !! this = Some p → pool_invariant p →
    others w = Ok (tt, w') →
    ∃ p', pools w' !! this = Some p' ∧ pool_invariant p'.

(** The operations of a pool, as calls whose result the caller keeps. *)
Inductive pool_op :=
| OpAcquire
| OpAcquireWait (env : schedule) (time_limit : Z)
| OpAllocate (args : T)
| OpPush (value : T)
| OpPushMove (value : T)
| OpEmplace (args : T)
| OpResize (count : size_type)
| OpResizeValue (count : size_type) (value : T)
| OpReserve (new_cap : size_type)
| OpReturnObject (obj : pointer).

Definition run_op (op : pool_op) (this : pool_id) : M unit :=
  match op with
  | OpAcquire => acquire this ;;; ret tt
  | OpAcquireWait env time_limit => acquire_wait env this time_limit ;;; ret tt
  | OpAllocate args => allocate args this ;;; ret tt
  | OpPush value => push value this
  | OpPushMove value => push_move value this
  | OpEmplace args => emplace args this
  | OpResize count => resize count this
  | OpResizeValue count value => resize_value count value this
  | OpReserve new_cap => reserve this new_cap
  | OpReturnObject obj => return_object this obj
  end.

(** The calls the invariant covers: [allocate] finds a free object;
    [return_object] brings back an object that [m_managed_count] still
    counts as lent; a [size_type] argument is in range; the threads that run
    during a wait keep the invariant. *)
Definition in_scope (this : pool_id) (op : pool_op) (p : impl) : Prop :=
  match op with
  | OpAllocate _ => m_free_objects p ≠ []
  | OpReturnObject _ => stack_size (m_free_objects p) < m_managed_count p
  | OpResize count | OpResizeValue count _ => count < size_modulus
  | OpAcquireWait env _ =>
      Forall (preserves this) (wakeups env) ∧ preserves this (at_expiry env)
  | _ => True
  end.

(** The states of one pool reached from a constructor by calls in scope. *)
Inductive reachable (this : pool_id) : world → Prop :=
| reachable_alloc alloc w w' :
    object_pool_alloc alloc w = Ok (this, w') → reachable this w'
| reachable_count count alloc w w' :
    count < size_modulus →
    object_pool_count count alloc w = Ok (this, w') → reachable this w'
| reachable_count_value count value alloc w w' :
    count < size_modulus →
    object_pool_count_value count value alloc w = Ok (this, w') → reachable this w'
| reachable_step op w w' p :
    reachable this w →
    pools w !! this = Some p →
    in_scope this op p →
    run_op op this w = Ok (tt, w') →
    reachable this w'.

(** What other threads do during a wait leaves the free list of the pool
    empty. *)
Definition keeps_free_empty (this : pool_id) (others : M unit) : Prop :=
  ∀ (w : world) (p : impl),
    pools w !! this = Some p → m_free_objects p = [] →
    ∃ w' p', others w = Ok (tt, w')
             ∧ pools w' !! this = Some p' ∧ m_free_objects p' = [].

(** ** A client of one pool

    The client holds the handles its calls returned, newest first, and may
    drop any of them.  [lent] lists the objects those handles own, [owned]
    every address the pool is responsible for: lent, free, or raw. *)
Inductive client_op :=
| ClAcquire
| ClAllocate (args : T)
| ClPush (value : T)
| ClResize (count : size_type)
| ClResizeValue (count : size_type) (value : T)
| ClReserve (new_cap : size_type)
| ClDrop (i : nat).

Definition client_step (this : pool_id) (op : client_op)
    (handles : list acquired_object) : M (list acquired_object) :=
  match op with
  | ClAcquire => h <- acquire this ;; ret (h :: handles)
  | ClAllocate args => h <- allocate args this ;; ret (h :: handles)
  | ClPush value => push value this ;;; ret handles
  | ClResize count => resize count this ;;; ret handles
  | ClResizeValue count value => resize_value count value this ;;; ret handles
  | ClReserve new_cap => reserve this new_cap ;;; ret handles
  | ClDrop i =>
      match handles !! i with
      | Some h => acquired_object_dtor h ;;; ret (delete i handles)
      | None => ret handles
      end
  end.

Fixpoint lent (handles : list acquired_object) : list pointer :=
  match handles with
  | [] => []
  | h :: rest => if m_is_initialized h then m_obj h :: lent rest else lent rest
  end.

Definition owned (handles : list acquired_object) (p : impl) : list pointer :=
  lent handles ++ m_free_objects p ++ m_allocated_space p.

Definition handles_of (this : pool_id) (handles : list acquired_object) : Prop :=
  Forall (λ h, m_is_initialized h = true → m_pool h = Some this ∧ m_obj h ≠ nullptr)
         handles.

(** No address is owned twice, and the allocator has handed out all of
    them. *)
Definition exclusive (this : pool_id) (handles : list acquired_object) (w : world)
  : Prop :=
  ∃ p, pools w !! this = Some p
       ∧ handles_of this handles
       ∧ NoDup (owned handles p)
       ∧ Forall (λ o, o < Npos (next_addr w)) (owned handles p).

(** [m_managed_count] counts the free and the lent objects. *)
Definition conserved (handles : list acquired_object) (p : impl) : Prop :=
  m_managed_count p = stack_size (m_free_objects p) + stack_size (lent handles).

(** The calls under which the count is kept: [resize] when nothing is
    lent, and no wrap of [++m_managed_count]. *)
Definition counting_scope (op : client_op) (handles : list acquired_object)
    (p : impl) : Prop :=
  match op with
  | ClResize _ | ClResizeValue _ _ => lent handles = []
  | ClAllocate _ | ClPush _ => m_managed_count p < SIZE_MAX
  | _ => True
  end.

Definition any_call (op : client_op) (handles : list acquired_object) (p : impl)
  : Prop := True.

(** What a client reaches from a constructor by calls within [scope]. *)
Inductive client_reachable
    (scope : client_op → list acquired_object → impl → Prop) (this : pool_id)
  : list acquired_object → world → Prop :=
| client_new_alloc alloc w w' :
    object_pool_alloc alloc w = Ok (this, w') → client_reachable scope this [] w'
| client_new_count count alloc w w' :
    object_pool_count count alloc w = Ok (this, w') → client_reachable scope this [] w'
| client_new_count_value count value alloc w w' :
    object_pool_count_value count value alloc w = Ok (this, w') →
    client_reachable scope this [] w'
| client_next op handles handles' w w' p :
    client_reachable scope this handles w →
    pools w !! this = Some p →
    scope op handles p →
    client_step this op handles w = Ok (handles', w') →
    client_reachable scope this handles' w'.

(** * Properties *)

Ltac unfold_ops :=
  unfold acquire, allocate, return_object, free_top, free_pop, free_push,
    space_top, space_pop, space_push, modify_impl, notify_one, construct, destroy,
    return_moved, acquired_object_ctor, acquired_object_dtor, deleter_call,
    weak_lock, allocate1, size, managed_count, capacity, in_use, empty, impl_bool,
    acquired_object_assign, acquired_object_assign_none, free_objects_empty,
    acquired_object_default, acquired_object_none,
    emit, assert, undefined, blocked, put_impl, ret, bind, get_impl in *.

Ltac reduce :=
  cbn [pools log next_pool next_addr fst snd negb stack_empty
       m_free_objects m_allocated_space m_managed_count m_capacity
       m_allocator set_free_objects set_allocated_space
       set_managed_count set_capacity set_allocator
       m_obj m_pool m_is_initialized acquired_object_move].

Ltac rewrite_known :=
  match goal with
  | H : pools ?w !! ?t = _ |- context [pools ?w !! ?t] => rewrite H
  | H : m_free_objects ?p = _ |- context [m_free_objects ?p] => rewrite H
  | H : m_allocated_space ?p = _ |- context [m_allocated_space ?p] => rewrite H
  | H : (?a =? ?b) = _ |- context [?a =? ?b] => rewrite H
  | H : (?a <? ?b) = _ |- context [?a <? ?b] => rewrite H
  | H : ?i ≠ ?j |- context [<[?i := _]> _ !! ?j] => rewrite (lookup_insert_ne _ i j) by exact H
  | H : ?j ≠ ?i |- context [<[?i := _]> _ !! ?j] =>
      rewrite (lookup_insert_ne _ i j) by (intros ?; apply H; congruence)
  end.

Ltac run :=
  repeat first
    [ progress unfold_ops | progress reduce | rewrite lookup_insert_eq | rewrite_known ].

(** ** acquire *)

(** C3. [acquire] always returns.  On an empty free list the result is the
    "none" handle and the whole state is unchanged; otherwise the top of the
    free list is popped and returned in a handle bound to this pool, which
    compares unequal to [none]. *)
Theorem acquire_spec (this : pool_id) (w : world) (p : impl) :
  pools w !! this = Some p →
  nonnull_stack (m_free_objects p) →
  match m_free_objects p with
  | [] =>
      acquire this w = Ok (acquired_object_none, w)
      ∧ eq_none acquired_object_none = true
  | top :: rest =>
      let h := AcquiredObject top (Some this) true in
      acquire this w =
        Ok (h, World (<[this := set_free_objects rest p]> (pools w))
                     (next_pool w) (next_addr w) (log w))
      ∧ neq_none h = true
      ∧ stack_size rest + 1 = stack_size (m_free_objects p)
  end.
Proof.
  intros Hp Hnn.
  destruct (m_free_objects p) as [|top rest] eqn:Hfree.
  - split; [|reflexivity]. run. reflexivity.
  - apply Forall_cons in Hnn as [Htop _].
    apply N.eqb_neq in Htop.
    run. repeat split. unfold stack_size. cbn [length]. lia.
Qed.

(** ** Dereferencing a handle *)

Lemma assign_none_total (h : acquired_object) (w : world) :
  ∃ w', acquired_object_assign_none h w = Ok (AcquiredObject nullptr None false, w').
Proof.
  destruct h as [obj [id|] [|]]; run; eauto.
  - destruct (obj =? nullptr) eqn:Hobj; run; eauto.
    destruct (pools w !! id) eqn:Hid; run; eauto.
  - destruct (obj =? nullptr) eqn:Hobj; run; eauto.
Qed.

(** C8. [operator*] and [operator->] of a handle that is not initialised
    throw [std::logic_error], whatever [m_obj] holds; default construction,
    construction from [none] or [nullptr], being moved from and assignment
    of [none] all leave the handle in that state.  On an initialised handle
    both return the owned object. *)
Theorem dereference_spec (h : acquired_object) :
  (if m_is_initialized h
   then operator_star h = Ok (m_obj h) ∧ operator_arrow h = Ok (m_obj h)
   else (∃ what, operator_star h = Throw (logic_error what))
        ∧ (∃ what, operator_arrow h = Throw (logic_error what)))
  ∧ m_is_initialized acquired_object_default = false
  ∧ m_is_initialized acquired_object_none = false
  ∧ m_is_initialized acquired_object_nullptr = false
  ∧ m_is_initialized (snd (acquired_object_move h)) = false
  ∧ (∀ w, ∃ h' w', acquired_object_assign_none h w = Ok (h', w')
                   ∧ m_is_initialized h' = false).
Proof.
  split.
  - unfold operator_star, operator_arrow.
    destruct (m_is_initialized h); cbn [negb]; eauto.
  - repeat split.
    intros w. destruct (assign_none_total h w) as [w' Hw'].
    exists (AcquiredObject nullptr None false), w'. split; [exact Hw' | reflexivity].
Qed.

(** ** Default construction *)

(** C10. A default-constructed pool, with the default or with a given
    allocator, has no free and no managed object, capacity 4, and four
    raw slots obtained from the allocator on its stack of uninitialised
    storage. *)
Theorem default_pool_spec (alloc : Alloc) (w : world) :
  object_pool_default = object_pool_alloc Alloc_default
  ∧ ∃ w', object_pool_alloc alloc w = Ok (next_pool w, w')
    ∧ size (next_pool w) w' = Ok (0, w')
    ∧ managed_count (next_pool w) w' = Ok (0, w')
    ∧ empty (next_pool w) w' = Ok (true, w')
    ∧ capacity (next_pool w) w' = Ok (4, w')
    ∧ (let a1 := Npos (next_addr w) in
       let a2 := Npos (Pos.succ (next_addr w)) in
       let a3 := Npos (Pos.succ (Pos.succ (next_addr w))) in
       let a4 := Npos (Pos.succ (Pos.succ (Pos.succ (next_addr w)))) in
       pools w' !! next_pool w = Some (Impl 0 4 alloc [a4; a3; a2; a1] [])
       ∧ log w' = log w ++ [EvAllocate alloc a1; EvAllocate alloc a2;
                            EvAllocate alloc a3; EvAllocate alloc a4]).
Proof.
  split; [reflexivity|].
  unfold object_pool_alloc, impl_new, make_shared.
  run. change (N.to_nat 4) with 4%nat. cbn [allocate_slots]. run.
  eexists. split; [reflexivity|]. run.
  repeat split.
  rewrite <- !app_assoc. reflexivity.
Qed.

(** ** swap *)

(** C9. [swap] of two distinct cores exchanges [m_managed_count],
    [m_capacity], [m_free_objects] and [m_allocator]; each core keeps its own
    [m_allocated_space]. *)
Theorem swap_spec (this other : pool_id) (w : world) (a b : impl) :
  this ≠ other →
  pools w !! this = Some a →
  pools w !! other = Some b →
  ∃ w', swap this other w = Ok (tt, w')
    ∧ pools w' !! this =
        Some (Impl (m_managed_count b) (m_capacity b) (m_allocator b)
                   (m_allocated_space a) (m_free_objects b))
    ∧ pools w' !! other =
        Some (Impl (m_managed_count a) (m_capacity a) (m_allocator a)
                   (m_allocated_space b) (m_free_objects a))
    ∧ (∀ id, id ≠ this → id ≠ other → pools w' !! id = pools w !! id)
    ∧ log w' = log w.
Proof.
  intros Hne Ha Hb. unfold swap.
  apply N.eqb_neq in Hne as Hneb. rewrite Hneb. apply N.eqb_neq in Hneb.
  run. eexists. split; [reflexivity|]. run.
  repeat split.
  intros id H1 H2. rewrite !lookup_insert_ne by congruence. reflexivity.
Qed.

(** ** Acquire, then drop the handle *)

Lemma size_sub_diag (a : size_type) : size_sub a a = 0.
Proof. unfold size_sub. rewrite Z.sub_diag. reflexivity. Qed.

Lemma size_sub_succ (n : nat) :
  size_sub (N.of_nat (S n)) (N.of_nat n) = 1.
Proof.
  unfold size_sub.
  replace (Z.of_N (N.of_nat (S n)) - Z.of_N (N.of_nat n))%Z with 1%Z by lia.
  reflexivity.
Qed.

Lemma insert_same_impl (this : pool_id) (m : gmap pool_id impl) (p q : impl) :
  m !! this = Some p →
  <[this := p]> (<[this := q]> m) = m.
Proof. intros H. rewrite insert_insert_eq. apply insert_id, H. Qed.

(** X27. With a non-empty free list, [acquire] followed by the destruction of
    the handle it returned puts every core of the store back as it was: in
    particular [size()] and [in_use()] report what they reported before.
    Where [m_managed_count] equals the number of free objects before the
    call, [in_use()] is false, true while the handle is out, and false
    again. *)
Theorem acquire_release_roundtrip (this : pool_id) (w : world) (p : impl)
    (top : pointer) (rest : list pointer) :
  pools w !! this = Some p →
  m_free_objects p = top :: rest →
  top ≠ nullptr →
  ∃ h w1 w2,
    acquire this w = Ok (h, w1)
    ∧ size this w1 = Ok (stack_size rest, w1)
    ∧ acquired_object_dtor h w1 = Ok (tt, w2)
    ∧ pools w2 = pools w
    ∧ size this w = Ok (stack_size (top :: rest), w)
    ∧ size this w2 = Ok (stack_size (top :: rest), w2)
    ∧ (∀ b, in_use this w = Ok (b, w) → in_use this w2 = Ok (b, w2))
    ∧ (m_managed_count p = stack_size (top :: rest) →
       in_use this w = Ok (false, w)
       ∧ in_use this w1 = Ok (true, w1)
       ∧ in_use this w2 = Ok (false, w2)).
Proof.
  intros Hp Hfree Htop. apply N.eqb_neq in Htop.
  assert (Hrestore : <[this := set_free_objects (top :: rest) (set_free_objects rest p)]>
                       (<[this := set_free_objects rest p]> (pools w)) = pools w).
  { apply insert_same_impl. rewrite Hp. f_equal.
    destruct p; cbn in *; subst; reflexivity. }
  do 3 eexists. split; [run; reflexivity|].
  split; [run; reflexivity|].
  split; [run; reflexivity|].
  split; [reduce; exact Hrestore|].
  split; [run; reflexivity|].
  split; [run; reflexivity|].
  split.
  - intros b. run. intros [= <-]. reflexivity.
  - intros Hmc. run. rewrite Hmc.
    unfold stack_size. cbn [length]. rewrite size_sub_diag, size_sub_succ.
    repeat split.
Qed.

(** ** allocate *)

Lemma size_incr_small (a : size_type) : a < SIZE_MAX → size_incr a = a + 1.
Proof.
  intros H. unfold size_incr, size_wrap. apply N.mod_small.
  unfold SIZE_MAX in H. lia.
Qed.

(** C4. [allocate] never returns the "none" handle.  With a free object it
    does what [acquire] does; with none it obtains storage from the
    allocator, constructs the object there, increments [m_managed_count] and
    leaves [m_capacity] and both stacks as they are. *)
Theorem allocate_spec (v : T) (this : pool_id) (w : world) (p : impl) :
  pools w !! this = Some p →
  nonnull_stack (m_free_objects p) →
  m_managed_count p < SIZE_MAX →
  ∃ h w',
    allocate v this w = Ok (h, w')
    ∧ neq_none h = true
    ∧ m_pool h = Some this
    ∧ match m_free_objects p with
      | top :: rest =>
          acquire this w = Ok (h, w')
          ∧ m_obj h = top
          ∧ pools w' = <[this := set_free_objects rest p]> (pools w)
          ∧ log w' = log w
      | [] =>
          let obj := Npos (next_addr w) in
          m_obj h = obj
          ∧ pools w' =
              <[this := Impl (m_managed_count p + 1) (m_capacity p) (m_allocator p)
                             (m_allocated_space p) []]> (pools w)
          ∧ log w' = log w ++ [EvAllocate (m_allocator p) obj; EvConstruct obj v]
      end.
Proof.
  intros Hp Hnn Hmc.
  destruct (m_free_objects p) as [|top rest] eqn:Hfree.
  - run. do 2 eexists. split; [reflexivity|]. reduce.
    rewrite size_incr_small by exact Hmc. rewrite <- app_assoc.
    repeat split. unfold set_managed_count. rewrite Hfree. reflexivity.
  - apply Forall_cons in Hnn as [Htop _]. apply N.eqb_neq in Htop.
    run. do 2 eexists. split; [reflexivity|]. repeat split.
Qed.

(** ** The loops over the two stacks *)

Lemma world_eta (w : world) (p : impl) (this : pool_id) :
  pools w !! this = Some p →
  World (<[this := p]> (pools w)) (next_pool w) (next_addr w) (log w ++ []) = w.
Proof.
  intros H. rewrite insert_id by exact H. rewrite app_nil_r.
  destruct w; reflexivity.
Qed.

Lemma impl_eta (p : impl) :
  Impl (m_managed_count p) (m_capacity p) (m_allocator p)
       (m_allocated_space p) (m_free_objects p) = p.
Proof. destruct p; reflexivity. Qed.

Lemma length_fresh_addrs (n : nat) : ∀ a, length (fresh_addrs n a) = n.
Proof. induction n as [|n IH]; intros a; cbn; [|rewrite IH]; reflexivity. Qed.

Lemma allocate_slots_ok (this : pool_id) (n : nat) :
  ∀ (w : world) (p : impl),
    pools w !! this = Some p →
    allocate_slots n this w =
      Ok (tt, World
                (<[this := set_allocated_space
                             (rev (fresh_addrs n (next_addr w)) ++ m_allocated_space p) p]>
                   (pools w))
                (next_pool w) (advance n (next_addr w))
                (log w ++ map (EvAllocate (m_allocator p)) (fresh_addrs n (next_addr w)))).
Proof.
  induction n as [|n IH]; intros w p Hp.
  - cbn [allocate_slots fresh_addrs advance rev map app]. unfold ret.
    unfold set_allocated_space. rewrite impl_eta, world_eta by exact Hp. reflexivity.
  - cbn [allocate_slots]. run.
    erewrite IH by (reduce; apply lookup_insert_eq).
    reduce. rewrite insert_insert_eq.
    cbn [fresh_addrs advance rev map]. rewrite <- !app_assoc. reflexivity.
Qed.

Lemma resize_shrink_ok (this : pool_id) (n : nat) :
  ∀ (w : world) (p : impl),
    pools w !! this = Some p →
    (n ≤ length (m_free_objects p))%nat →
    resize_shrink n this w =
      Ok (tt, World
                (<[this := Impl (m_managed_count p) (m_capacity p) (m_allocator p)
                                (rev (take n (m_free_objects p)) ++ m_allocated_space p)
                                (drop n (m_free_objects p))]> (pools w))
                (next_pool w) (next_addr w)
                (log w ++ map EvDestroy (take n (m_free_objects p)))).
Proof.
  induction n as [|n IH]; intros w p Hp Hn.
  - cbn [resize_shrink take drop rev map app]. unfold ret.
    rewrite impl_eta, world_eta by exact Hp. reflexivity.
  - destruct (m_free_objects p) as [|top rest] eqn:Hfree; [cbn in Hn; lia|].
    cbn [resize_shrink]. run.
    erewrite IH by (reduce; first [apply lookup_insert_eq | cbn in Hn; lia]).
    reduce. rewrite !insert_insert_eq.
    cbn [take drop rev map]. rewrite <- !app_assoc. reflexivity.
Qed.

Lemma resize_grow_ok (this : pool_id) (v : T) (n : nat) :
  ∀ (w : world) (p : impl),
    pools w !! this = Some p →
    (n ≤ length (m_allocated_space p))%nat →
    resize_grow n v this w =
      Ok (tt, World
                (<[this := Impl (m_managed_count p) (m_capacity p) (m_allocator p)
                                (drop n (m_allocated_space p))
                                (rev (take n (m_allocated_space p)) ++ m_free_objects p)]>
                   (pools w))
                (next_pool w) (next_addr w)
                (log w ++ map (λ o, EvConstruct o v) (take n (m_allocated_space p)))).
Proof.
  induction n as [|n IH]; intros w p Hp Hn.
  - cbn [resize_grow take drop rev map app]. unfold ret.
    rewrite impl_eta, world_eta by exact Hp. reflexivity.
  - destruct (m_allocated_space p) as [|top rest] eqn:Hspace; [cbn in Hn; lia|].
    cbn [resize_grow]. run.
    erewrite IH by (reduce; first [apply lookup_insert_eq | cbn in Hn; lia]).
    reduce. rewrite !insert_insert_eq.
    cbn [take drop rev map]. rewrite <- !app_assoc. reflexivity.
Qed.

Lemma resize_grow_short (this : pool_id) (v : T) (n : nat) :
  ∀ (w : world) (p : impl),
    pools w !! this = Some p →
    (length (m_allocated_space p) < n)%nat →
    resize_grow n v this w = Undefined.
Proof.
  induction n as [|n IH]; intros w p Hp Hn; [lia|].
  destruct (m_allocated_space p) as [|top rest] eqn:Hspace.
  - cbn [resize_grow]. run. reflexivity.
  - cbn [resize_grow]. run.
    erewrite IH; [reflexivity | reduce; apply lookup_insert_eq | reduce; cbn in Hn; lia].
Qed.

(** ** resize, shrinking *)

(** C6. When more objects are free than [count], [resize(count)] (either
    overload) runs the destructor of the [size - count] topmost free objects,
    from the top down, moves their slots onto the stack of uninitialised
    storage, leaves [count] free objects and stores [count] in
    [m_managed_count], whatever it held before. *)
Theorem resize_shrink_spec (count : size_type) (value : T) (this : pool_id)
    (w : world) (p : impl) :
  pools w !! this = Some p →
  count < stack_size (m_free_objects p) →
  let k := N.to_nat (stack_size (m_free_objects p) - count) in
  let destroyed := take k (m_free_objects p) in
  ∃ w',
    resize count this w = Ok (tt, w')
    ∧ resize_value count value this w = Ok (tt, w')
    ∧ pools w' =
        <[this := Impl count (m_capacity p) (m_allocator p)
                       (rev destroyed ++ m_allocated_space p)
                       (drop k (m_free_objects p))]> (pools w)
    ∧ log w' = log w ++ map EvDestroy destroyed
    ∧ stack_size destroyed = stack_size (m_free_objects p) - count
    ∧ size this w' = Ok (count, w')
    ∧ managed_count this w' = Ok (count, w').
Proof.
  intros Hp Hcount k destroyed.
  assert (Hlt : (stack_size (m_free_objects p) <? count) = false)
    by (apply N.ltb_ge; lia).
  assert (Hk : (k ≤ length (m_free_objects p))%nat)
    by (unfold k, stack_size in *; lia).
  set (w' := World (<[this := Impl count (m_capacity p) (m_allocator p)
                                   (rev destroyed ++ m_allocated_space p)
                                   (drop k (m_free_objects p))]> (pools w))
                   (next_pool w) (next_addr w) (log w ++ map EvDestroy destroyed)).
  assert (Hrun : resize count this w = Ok (tt, w')
                 ∧ resize_value count value this w = Ok (tt, w')).
  { split; unfold resize, resize_value; run; fold k;
      rewrite (resize_shrink_ok this k w p Hp Hk); run;
      rewrite insert_insert_eq; reflexivity. }
  exists w'. split; [apply Hrun|].
  split; [apply Hrun|].
  split; [reflexivity|]. split; [reflexivity|].
  assert (Hdrop : stack_size (drop k (m_free_objects p)) = count).
  { unfold stack_size in *. rewrite length_drop. unfold k. lia. }
  split.
  - unfold destroyed, stack_size in *. rewrite length_take. unfold k. lia.
  - subst w'. run. rewrite Hdrop. split; reflexivity.
Qed.

(** ** push and emplace *)

Lemma push_move_is_push : push_move = push.
Proof. reflexivity. Qed.

Lemma emplace_is_push : emplace = push.
Proof. reflexivity. Qed.

Lemma size_mul_2_small (a : size_type) :
  2 * a < size_modulus → size_mul a 2 = 2 * a.
Proof.
  intros H. unfold size_mul, size_wrap. rewrite N.mul_comm. apply N.mod_small, H.
Qed.

(** X8. The growth path of [push] on a full pool of non-zero capacity: the
    capacity doubles, [m_capacity] fresh slots are stacked, the last of them
    receives the new object and goes onto the free list. *)
Lemma push_full_doubles (value : T) (this : pool_id) (w : world) (p : impl) :
  pools w !! this = Some p →
  m_managed_count p = m_capacity p →
  0 < m_capacity p →
  2 * m_capacity p < size_modulus →
  let n := N.to_nat (m_capacity p) in
  ∃ obj rest,
    rev (fresh_addrs n (next_addr w)) ++ m_allocated_space p = obj :: rest
    ∧ push value this w =
        Ok (tt, World
                  (<[this := Impl (m_managed_count p + 1) (2 * m_capacity p)
                                  (m_allocator p) rest (obj :: m_free_objects p)]>
                     (pools w))
                  (next_pool w) (advance n (next_addr w))
                  (log w ++ map (EvAllocate (m_allocator p)) (fresh_addrs n (next_addr w))
                         ++ [EvConstruct obj value; EvNotifyOne this])).
Proof.
  intros Hp Hfull Hpos Hsmall n.
  destruct (rev (fresh_addrs n (next_addr w)) ++ m_allocated_space p)
    as [|obj rest] eqn:Hslots.
  { apply (f_equal length) in Hslots. rewrite length_app, length_rev in Hslots.
    rewrite length_fresh_addrs in Hslots. cbn in Hslots. unfold n in *. lia. }
  exists obj, rest. split; [reflexivity|].
  unfold push, reallocate. run.
  rewrite Hfull, N.eqb_refl. run.
  rewrite size_mul_2_small by exact Hsmall.
  replace (N.to_nat (2 * m_capacity p - m_capacity p)) with n by (unfold n; lia).
  rewrite (allocate_slots_ok this n w p Hp). run.
  rewrite Hslots. run.
  rewrite !insert_insert_eq.
  rewrite size_incr_small by (rewrite Hfull; unfold SIZE_MAX; lia).
  rewrite <- !app_assoc.
  unfold set_managed_count, set_free_objects, set_allocated_space, set_capacity.
  reduce. rewrite ?Hfull. reflexivity.
Qed.

(** The growth scenario: a default-constructed pool is full after four
    pushes; the fifth doubles the capacity. *)
Example growth_scenario (v : T) (alloc : Alloc) :
  ∃ w',
    (id <- object_pool_alloc alloc ;;
     push v id ;;; push v id ;;; push v id ;;; push v id ;;;
     c4 <- capacity id ;; m4 <- managed_count id ;; s4 <- size id ;;
     push v id ;;;
     c5 <- capacity id ;; m5 <- managed_count id ;; s5 <- size id ;;
     ret (c4, m4, s4, c5, m5, s5)) (World ∅ 0 1 [])
    = Ok ((4, 4, 4, 8, 5, 5), w').
Proof. eexists. vm_compute. reflexivity. Qed.

(** C5. A pool constructed with [count = 0] has [m_managed_count ==
    m_capacity == 0]; [push] and [emplace] double the capacity to [0],
    obtain no slot, and call [top()] on the empty stack of uninitialised
    storage: the behaviour is undefined, no object is added. *)
Theorem push_zero_capacity_undefined (value : T) (alloc : Alloc) (w : world) :
  ∃ w1,
    object_pool_count 0 alloc w = Ok (next_pool w, w1)
    ∧ object_pool_count_value 0 value alloc w = Ok (next_pool w, w1)
    ∧ managed_count (next_pool w) w1 = Ok (0, w1)
    ∧ capacity (next_pool w) w1 = Ok (0, w1)
    ∧ push value (next_pool w) w1 = Undefined
    ∧ push_move value (next_pool w) w1 = Undefined
    ∧ emplace value (next_pool w) w1 = Undefined.
Proof.
  assert (Hpush : push value (next_pool w)
      (World (<[next_pool w := Impl 0 0 alloc [] []]> (pools w))
             (N.succ (next_pool w)) (next_addr w) (log w)) = Undefined).
  { unfold push, reallocate. run.
    change (0 =? 0) with true. run.
    change (N.to_nat (size_mul 0 2 - 0)) with 0%nat.
    cbn [allocate_slots]. run. reflexivity. }
  eexists.
  split; [unfold object_pool_count, impl_new_count, make_shared; run;
          change (N.to_nat 0) with 0%nat; cbn [construct_objects]; run; reflexivity|].
  split; [unfold object_pool_count_value, impl_new_count_value, make_shared; run;
          change (N.to_nat 0) with 0%nat; cbn [construct_objects]; run; reflexivity|].
  split; [run; reflexivity|]. split; [run; reflexivity|].
  rewrite push_move_is_push, emplace_is_push. repeat split; exact Hpush.
Qed.

(** ** acquire_wait *)

(** X23. With a non-zero time limit and an empty free list the predicate handed
    to [wait_for] is already true: the call returns the "none" handle at
    once, and nothing other threads do before the limit is observed. *)
Lemma acquire_wait_empty_returns_none (env : schedule) (this : pool_id)
    (time_limit : Z) (w : world) (p : impl) :
  pools w !! this = Some p →
  m_free_objects p = [] →
  time_limit ≠ 0%Z →
  acquire_wait env this time_limit w =
    Ok (AcquiredObject nullptr None false,
        World (pools w) (next_pool w) (next_addr w) (log w ++ [EvNotifyOne this])).
Proof.
  intros Hp Hfree Htl. apply Z.eqb_neq in Htl.
  unfold acquire_wait. rewrite Htl.
  destruct (wakeups env); cbn [cv_wait_for]; run; reflexivity.
Qed.

(** C1. One object, held by another thread, which drops its handle while
    this thread is inside [acquire_wait]: with a time limit of 50 the call
    returns "none" although the object comes back before the limit; with the
    limit 0 ("no limit") the same schedule yields the object. *)
Theorem acquire_wait_timed_misses_returned_object (v : T) (alloc : Alloc) :
  let scenario (time_limit : Z) : M (acquired_object * acquired_object) :=
    id <- object_pool_count_value 1 v alloc ;;
    held <- acquire id ;;
    got <- acquire_wait (Schedule [acquired_object_dtor held] (ret tt)) id time_limit ;;
    ret (held, got) in
  (∃ w', scenario 50%Z (World ∅ 0 1 []) =
           Ok ((AcquiredObject 1 (Some 0) true, AcquiredObject nullptr None false), w')
         ∧ pools w' !! 0 = Some (Impl 1 1 alloc [] []))
  ∧ (∃ w', scenario 0%Z (World ∅ 0 1 []) =
             Ok ((AcquiredObject 1 (Some 0) true, AcquiredObject 1 (Some 0) true), w')).
Proof.
  split; eexists; [split|]; vm_compute; reflexivity.
Qed.

(** ** The bookkeeping invariant *)

Lemma fresh_addrs_nonnull (n : nat) : ∀ a, nonnull_stack (fresh_addrs n a).
Proof.
  induction n as [|n IH]; intros a; cbn [fresh_addrs]; constructor;
    [discriminate | apply IH].
Qed.

Ltac inv_arith :=
  unfold pool_invariant, claimed_invariant, stack_size, size_modulus in *;
  repeat first
    [ progress cbn [m_free_objects m_allocated_space m_managed_count m_capacity
                    set_free_objects set_allocated_space set_managed_count
                    set_capacity length] in *
    | progress rewrite ?length_app, ?length_rev, ?length_take, ?length_drop,
                       ?length_fresh_addrs in * ];
  lia.

Ltac nonnull_solve :=
  unfold pool_invariant, nonnull_stack in *;
  cbn [m_free_objects m_allocated_space set_free_objects set_allocated_space
       set_managed_count set_capacity] in *;
  repeat match goal with
         | H : _ ∧ _ |- _ => destruct H
         | Heq : ?s = _ :: _, H : Forall _ ?s |- _ => rewrite Heq in H
         | H : Forall _ (_ :: _) |- _ => apply Forall_cons_1 in H
         | H : (_ =? nullptr) = false |- _ => apply N.eqb_neq in H
         end;
  repeat first
    [ assumption
    | apply Forall_nil_2
    | apply Forall_cons_2
    | apply Forall_app_2
    | apply Forall_rev
    | apply Forall_take
    | apply Forall_drop
    | apply fresh_addrs_nonnull
    | discriminate ].

Ltac inv_solve :=
  lazymatch goal with
  | |- pool_invariant _ =>
      split; [|split; [|split; [|split]]];
      [inv_arith | inv_arith | inv_arith | nonnull_solve | nonnull_solve]
  | |- _ => inv_arith
  end.

Lemma invariant_implies_claimed (p : impl) : pool_invariant p → claimed_invariant p.
Proof. intros H. inv_solve. Qed.

Lemma acquire_preserves (this : pool_id) (w w' : world) (p : impl) (h : acquired_object) :
  pools w !! this = Some p → pool_invariant p →
  acquire this w = Ok (h, w') →
  ∃ p', pools w' !! this = Some p' ∧ pool_invariant p'.
Proof.
  intros Hp Hinv. destruct (m_free_objects p) as [|top rest] eqn:Hfree.
  - run. intros [= <- <-]. eauto.
  - run. destruct (top =? nullptr) eqn:Htop; run; [discriminate|].
    intros [= <- <-]. reduce. rewrite lookup_insert_eq.
    eexists. split; [reflexivity|].
    unfold pool_invariant in Hinv. rewrite Hfree in Hinv. inv_solve.
Qed.

Lemma allocate_preserves (this : pool_id) (w w' : world) (p : impl) (v : T)
    (h : acquired_object) :
  pools w !! this = Some p → pool_invariant p →
  m_free_objects p ≠ [] →
  allocate v this w = Ok (h, w') →
  ∃ p', pools w' !! this = Some p' ∧ pool_invariant p'.
Proof.
  intros Hp Hinv Hne. destruct (m_free_objects p) as [|top rest] eqn:Hfree; [congruence|].
  run. destruct (top =? nullptr) eqn:Htop; run; [discriminate|].
  intros [= <- <-]. reduce. rewrite lookup_insert_eq.
  eexists. split; [reflexivity|].
  unfold pool_invariant in Hinv. rewrite Hfree in Hinv. inv_solve.
Qed.

Lemma return_object_preserves (this : pool_id) (w w' : world) (p : impl) (obj : pointer) :
  pools w !! this = Some p → pool_invariant p →
  stack_size (m_free_objects p) < m_managed_count p →
  return_object this obj w = Ok (tt, w') →
  ∃ p', pools w' !! this = Some p' ∧ pool_invariant p'.
Proof.
  intros Hp Hinv Hlent. run. destruct (obj =? nullptr) eqn:Hobj; run; [discriminate|].
  intros [= <-]. reduce. rewrite lookup_insert_eq.
  eexists. split; [reflexivity|]. inv_solve.
Qed.

Lemma size_mul_2_grows (a : size_type) :
  a < size_modulus → a < size_mul a 2 → size_mul a 2 = 2 * a ∧ 2 * a < size_modulus.
Proof.
  unfold size_mul, size_wrap, size_modulus. intros Ha Hgrow.
  destruct (N.lt_ge_cases (a * 2) (2 ^ 64)) as [Hs|Hb].
  - rewrite N.mod_small by exact Hs. lia.
  - exfalso.
    assert ((a * 2) mod 2 ^ 64 = a * 2 - 2 ^ 64) as Hmod
      by (symmetry; apply (N.mod_unique _ _ 1); lia).
    lia.
Qed.

Lemma size_incr_below (a b : size_type) :
  a < b → b < size_modulus → size_incr a = a + 1.
Proof.
  intros Hab Hb. unfold size_incr, size_wrap. apply N.mod_small. lia.
Qed.

Lemma push_preserves (this : pool_id) (w w' : world) (p : impl) (value : T) :
  pools w !! this = Some p → pool_invariant p →
  push value this w = Ok (tt, w') →
  ∃ p', pools w' !! this = Some p' ∧ pool_invariant p'.
Proof.
  intros Hp Hinv. unfold push, reallocate. run.
  destruct (m_managed_count p =? m_capacity p) eqn:Hfull.
  - apply N.eqb_eq in Hfull. run.
    rewrite (allocate_slots_ok this _ w p Hp). run.
    assert (Hspace : m_allocated_space p = []).
    { destruct (m_allocated_space p) eqn:E; [reflexivity|]. exfalso.
      unfold pool_invariant in Hinv. rewrite E in Hinv. inv_solve. }
    rewrite Hspace, app_nil_r.
    destruct (rev (fresh_addrs _ (next_addr w))) as [|obj rest] eqn:Hslots;
      run; [discriminate|].
    intros [= <-]. reduce. rewrite lookup_insert_eq.
    eexists. split; [reflexivity|].
    assert (Hfresh : nonnull_stack (obj :: rest))
      by (rewrite <- Hslots; apply Forall_rev, fresh_addrs_nonnull).
    apply (f_equal length) in Hslots.
    rewrite length_rev, length_fresh_addrs in Hslots. cbn [length] in Hslots.
    destruct (size_mul_2_grows (m_capacity p)) as [Hmul Hsmall];
      [inv_solve | lia |].
    rewrite Hmul in *.
    rewrite (size_incr_below (m_managed_count p) (2 * m_capacity p)) by lia.
    inv_solve.
  - apply N.eqb_neq in Hfull. run.
    destruct (m_allocated_space p) as [|obj rest] eqn:Hspace; run; [discriminate|].
    intros [= <-]. reduce. rewrite lookup_insert_eq.
    eexists. split; [reflexivity|].
    unfold pool_invariant in Hinv. rewrite Hspace in Hinv.
    rewrite (size_incr_below (m_managed_count p) (m_capacity p)) by inv_solve.
    inv_solve.
Qed.

Lemma reserve_preserves (this : pool_id) (w w' : world) (p : impl) (new_cap : size_type) :
  pools w !! this = Some p → pool_invariant p →
  reserve this new_cap w = Ok (tt, w') →
  ∃ p', pools w' !! this = Some p' ∧ pool_invariant p'.
Proof.
  intros Hp Hinv. unfold reserve. run.
  destruct (m_capacity p <? new_cap) eqn:Hgrow; run.
  - apply N.ltb_lt in Hgrow.
    destruct (new_cap <=? INT_MAX) eqn:Hint; run; [|discriminate].
    apply N.leb_le in Hint. unfold INT_MAX in Hint.
    rewrite (allocate_slots_ok this _ w p Hp). run.
    intros [= <-]. reduce. rewrite lookup_insert_eq.
    eexists. split; [reflexivity|]. inv_solve.
  - intros [= <-]. eauto.
Qed.

Lemma resize_is_resize_value (count : size_type) :
  resize count = resize_value count T_default.
Proof. reflexivity. Qed.

Lemma resize_value_preserves (this : pool_id) (w w' : world) (p : impl)
    (count : size_type) (value : T) :
  pools w !! this = Some p → pool_invariant p →
  count < size_modulus →
  resize_value count value this w = Ok (tt, w') →
  ∃ p', pools w' !! this = Some p' ∧ pool_invariant p'.
Proof.
  intros Hp Hinv Hcount. unfold resize_value, reallocate. run.
  set (k := N.to_nat (count - stack_size (m_free_objects p))).
  destruct (stack_size (m_free_objects p) <? count) eqn:Hgrow; run.
  - apply N.ltb_lt in Hgrow.
    destruct (m_capacity p <? count) eqn:Hcap; run.
    + apply N.ltb_lt in Hcap.
      rewrite (allocate_slots_ok this _ w p Hp). run.
      rewrite insert_insert_eq.
      set (n := N.to_nat (count - m_capacity p)).
      set (space1 := rev (fresh_addrs n (next_addr w)) ++ m_allocated_space p).
      destruct (le_lt_dec k (length space1)) as [Hle|Hlt].
      * erewrite resize_grow_ok by (reduce; first [apply lookup_insert_eq | exact Hle]).
        run. intros [= <-]. reduce. rewrite lookup_insert_eq.
        eexists. split; [reflexivity|].
        subst space1 k n. inv_solve.
      * erewrite resize_grow_short by (reduce; first [apply lookup_insert_eq | exact Hlt]).
        discriminate.
    + apply N.ltb_ge in Hcap.
      destruct (le_lt_dec k (length (m_allocated_space p))) as [Hle|Hlt].
      * rewrite (resize_grow_ok this value k w p Hp Hle).
        run. intros [= <-]. reduce. rewrite lookup_insert_eq.
        eexists. split; [reflexivity|].
        subst k. inv_solve.
      * rewrite (resize_grow_short this value k w p Hp Hlt). discriminate.
  - apply N.ltb_ge in Hgrow.
    rewrite (resize_shrink_ok this _ w p Hp) by (unfold stack_size in *; lia).
    run. intros [= <-]. reduce. rewrite lookup_insert_eq.
    eexists. split; [reflexivity|]. inv_solve.
Qed.

Lemma bind_ok_inv {A B} (m : M A) (k : A → M B) (w w' : world) (b : B) :
  bind m k w = Ok (b, w') →
  ∃ a w1, m w = Ok (a, w1) ∧ k a w1 = Ok (b, w').
Proof.
  unfold bind. destruct (m w) as [[a w1]| | | |]; try discriminate. eauto.
Qed.

Lemma cv_wait_preserves (this : pool_id) (rounds : list (M unit)) :
  Forall (preserves this) rounds →
  ∀ (w w' : world) (p : impl),
    pools w !! this = Some p → pool_invariant p →
    cv_wait (e <- free_objects_empty this ;; ret (negb e)) rounds w = Ok (tt, w') →
    ∃ p', pools w' !! this = Some p' ∧ pool_invariant p'
          ∧ stack_empty (m_free_objects p') = false.
Proof.
  induction 1 as [|others rest Hothers _ IH]; intros w w' p Hp Hinv;
    cbn [cv_wait]; intros H;
    apply bind_ok_inv in H as (b & w1 & Hpred & H);
    revert Hpred; run; intros [= <- <-];
    destruct (stack_empty (m_free_objects p)) eqn:Hempty; cbn [negb] in H.
  - discriminate.
  - injection H as <-. eauto.
  - apply bind_ok_inv in H as ([] & w1 & Hrun & H).
    destruct (Hothers w w1 p Hp Hinv Hrun) as (p1 & Hp1 & Hinv1). eauto.
  - injection H as <-. eauto.
Qed.

Lemma cv_wait_for_preserves (this : pool_id) (rounds : list (M unit)) (expiry : M unit) :
  Forall (preserves this) rounds →
  preserves this expiry →
  ∀ (w w' : world) (p : impl) (b : bool),
    pools w !! this = Some p → pool_invariant p →
    cv_wait_for (free_objects_empty this) rounds expiry w = Ok (b, w') →
    ∃ p', pools w' !! this = Some p' ∧ pool_invariant p'
          ∧ stack_empty (m_free_objects p') = b.
Proof.
  intros Hrounds Hexpiry.
  induction Hrounds as [|others rest Hothers _ IH]; intros w w' p b Hp Hinv;
    cbn [cv_wait_for]; intros H;
    apply bind_ok_inv in H as (e & w1 & Hpred & H);
    revert Hpred; run; intros [= <- <-];
    destruct (stack_empty (m_free_objects p)) eqn:Hempty.
  - injection H as <- <-. eauto.
  - apply bind_ok_inv in H as ([] & w1 & Hrun & H).
    destruct (Hexpiry w w1 p Hp Hinv Hrun) as (p1 & Hp1 & Hinv1).
    revert H. run. intros [= <- <-]. eauto.
  - injection H as <- <-. eauto.
  - apply bind_ok_inv in H as ([] & w1 & Hrun & H).
    destruct (Hothers w w1 p Hp Hinv Hrun) as (p1 & Hp1 & Hinv1). eauto.
Qed.

Lemma pop_into_handle_preserves (this : pool_id) (w w' : world) (p : impl)
    (h : acquired_object) :
  pools w !! this = Some p → pool_invariant p →
  (top <- free_top this ;;
   tmp <- acquired_object_ctor top this ;;
   r <- acquired_object_assign acquired_object_default tmp ;;
   acquired_object_dtor (snd r) ;;;
   free_pop this ;;;
   ret (fst r)) w = Ok (h, w') →
  ∃ p', pools w' !! this = Some p' ∧ pool_invariant p'.
Proof.
  intros Hp Hinv. destruct (m_free_objects p) as [|top rest] eqn:Hfree.
  - run. discriminate.
  - run. destruct (top =? nullptr) eqn:Htop; run; [discriminate|].
    intros [= <- <-]. reduce. rewrite lookup_insert_eq.
    eexists. split; [reflexivity|].
    unfold pool_invariant in Hinv. rewrite Hfree in Hinv. inv_solve.
Qed.

Lemma acquire_wait_preserves (this : pool_id) (env : schedule) (time_limit : Z)
    (w w' : world) (p : impl) (h : acquired_object) :
  pools w !! this = Some p → pool_invariant p →
  Forall (preserves this) (wakeups env) →
  preserves this (at_expiry env) →
  acquire_wait env this time_limit w = Ok (h, w') →
  ∃ p', pools w' !! this = Some p' ∧ pool_invariant p'.
Proof.
  intros Hp Hinv Hrounds Hexpiry H. unfold acquire_wait in H.
  apply bind_ok_inv in H as (obj & w2 & Hbody & Hret).
  assert (∃ p2, pools w2 !! this = Some p2 ∧ pool_invariant p2) as (p2 & Hp2 & Hinv2).
  { destruct (time_limit =? 0)%Z.
    - apply bind_ok_inv in Hbody as ([] & w1 & Hwait & Hpop).
      destruct (cv_wait_preserves this _ Hrounds w w1 p Hp Hinv Hwait)
        as (p1 & Hp1 & Hinv1 & _).
      exact (pop_into_handle_preserves this w1 w2 p1 obj Hp1 Hinv1 Hpop).
    - apply bind_ok_inv in Hbody as (b & w1 & Hwait & Hrest).
      destruct (cv_wait_for_preserves this _ _ Hrounds Hexpiry w w1 p b Hp Hinv Hwait)
        as (p1 & Hp1 & Hinv1 & _).
      destruct b.
      + revert Hrest. run. intros [= <- <-]. eauto.
      + exact (pop_into_handle_preserves this w1 w2 p1 obj Hp1 Hinv1 Hrest). }
  revert Hret. run. intros [= <- <-]. reduce. eauto.
Qed.

Lemma construct_objects_ok (this : pool_id) (v : T) (n : nat) :
  ∀ (w : world) (p : impl),
    pools w !! this = Some p →
    construct_objects n v this w =
      Ok (tt, World
                (<[this := set_free_objects
                             (rev (fresh_addrs n (next_addr w)) ++ m_free_objects p) p]>
                   (pools w))
                (next_pool w) (advance n (next_addr w))
                (log w ++ flat_map (λ o, [EvAllocate (m_allocator p) o; EvConstruct o v])
                                   (fresh_addrs n (next_addr w)))).
Proof.
  induction n as [|n IH]; intros w p Hp.
  - cbn [construct_objects fresh_addrs advance rev flat_map app]. unfold ret.
    unfold set_free_objects. rewrite impl_eta, world_eta by exact Hp. reflexivity.
  - cbn [construct_objects]. run.
    erewrite IH by (reduce; apply lookup_insert_eq).
    reduce. rewrite insert_insert_eq.
    cbn [fresh_addrs advance rev flat_map]. rewrite <- !app_assoc. reflexivity.
Qed.

Lemma impl_new_invariant (alloc : Alloc) (w w' : world) (this : pool_id) :
  impl_new alloc w = Ok (this, w') →
  ∃ p, pools w' !! this = Some p ∧ pool_invariant p.
Proof.
  unfold impl_new, make_shared. run.
  erewrite allocate_slots_ok by (reduce; apply lookup_insert_eq).
  run. intros [= <- <-]. reduce. rewrite lookup_insert_eq.
  eexists. split; [reflexivity|]. inv_solve.
Qed.

Lemma impl_new_count_value_invariant (count : size_type) (value : T) (alloc : Alloc)
    (w w' : world) (this : pool_id) :
  count < size_modulus →
  impl_new_count_value count value alloc w = Ok (this, w') →
  ∃ p, pools w' !! this = Some p ∧ pool_invariant p.
Proof.
  intros Hcount. unfold impl_new_count_value, make_shared. run.
  erewrite construct_objects_ok by (reduce; apply lookup_insert_eq).
  run. intros [= <- <-]. reduce. rewrite lookup_insert_eq.
  eexists. split; [reflexivity|]. inv_solve.
Qed.

Lemma reachable_pool_invariant (this : pool_id) (w : world) :
  reachable this w →
  ∃ p, pools w !! this = Some p ∧ pool_invariant p.
Proof.
  induction 1 as [alloc w w' Hnew | count alloc w w' Hcount Hnew
                 | count value alloc w w' Hcount Hnew
                 | op w w' p _ IH Hp Hscope Hrun].
  - exact (impl_new_invariant alloc w w' this Hnew).
  - exact (impl_new_count_value_invariant count T_default alloc w w' this Hcount Hnew).
  - exact (impl_new_count_value_invariant count value alloc w w' this Hcount Hnew).
  - destruct IH as (p0 & Hp0 & Hinv).
    assert (p0 = p) as -> by congruence.
    destruct op; cbn [run_op in_scope] in *.
    + apply bind_ok_inv in Hrun as (h & w1 & Hrun & [= <-]).
      exact (acquire_preserves this w w1 p h Hp Hinv Hrun).
    + apply bind_ok_inv in Hrun as (h & w1 & Hrun & [= <-]).
      destruct Hscope as [Hrounds Hexpiry].
      exact (acquire_wait_preserves this env time_limit w w1 p h Hp Hinv
               Hrounds Hexpiry Hrun).
    + apply bind_ok_inv in Hrun as (h & w1 & Hrun & [= <-]).
      exact (allocate_preserves this w w1 p args h Hp Hinv Hscope Hrun).
    + exact (push_preserves this w w' p value Hp Hinv Hrun).
    + exact (push_preserves this w w' p value Hp Hinv Hrun).
    + exact (push_preserves this w w' p args Hp Hinv Hrun).
    + exact (resize_value_preserves this w w' p count T_default Hp Hinv Hscope Hrun).
    + exact (resize_value_preserves this w w' p count value Hp Hinv Hscope Hrun).
    + exact (reserve_preserves this w w' p new_cap Hp Hinv Hrun).
    + exact (return_object_preserves this w w' p obj Hp Hinv Hscope Hrun).
Qed.

(** C2, amended.  In every state a pool reaches from one of its constructors
    by [acquire], [acquire_wait], [push], [emplace], [resize], [reserve],
    by [allocate] calls that find a free object and by [return_object] of an
    object that [m_managed_count] counts as lent,
    [0 <= free_objects.size() <= managed_count <= capacity] holds; moreover
    the uninitialised slots fit into the capacity left by the managed
    objects and no stack holds a null pointer. *)
Theorem reachable_invariant (this : pool_id) (w : world) :
  reachable this w →
  ∃ p, pools w !! this = Some p ∧ claimed_invariant p ∧ pool_invariant p.
Proof.
  intros Hreach.
  destruct (reachable_pool_invariant this w Hreach) as (p & Hp & Hinv).
  exists p. auto using invariant_implies_claimed.
Qed.

(** X25. On a reachable pool no assertion of [acquire] can fail: the call
    returns. *)
Corollary acquire_returns_on_reachable (this : pool_id) (w : world) :
  reachable this w → ∃ h w', acquire this w = Ok (h, w').
Proof.
  intros Hreach.
  destruct (reachable_pool_invariant this w Hreach) as (p & Hp & Hinv).
  assert (Hnn : nonnull_stack (m_free_objects p)) by apply Hinv.
  destruct (m_free_objects p) as [|top rest] eqn:Hfree.
  - run. eauto.
  - apply Forall_cons_1 in Hnn as [Htop _]. apply N.eqb_neq in Htop.
    run. eauto.
Qed.

(** X24. What the timed branch of [acquire_wait] does when an object is free at
    the call and no other thread touches the pool: the predicate stays false
    until the limit expires, then the top object is popped. *)
Lemma acquire_wait_timed_quiet (this : pool_id) (time_limit : Z) (w : world)
    (p : impl) (top : pointer) (rest : list pointer) :
  pools w !! this = Some p →
  m_free_objects p = top :: rest →
  top ≠ nullptr →
  time_limit ≠ 0%Z →
  acquire_wait (Schedule [] (ret tt)) this time_limit w =
    Ok (AcquiredObject top (Some this) true,
        World (<[this := set_free_objects rest p]> (pools w))
              (next_pool w) (next_addr w) (log w ++ [EvNotifyOne this])).
Proof.
  intros Hp Hfree Htop Htl. apply Z.eqb_neq in Htl. apply N.eqb_neq in Htop.
  unfold acquire_wait. rewrite Htl. cbn [wakeups at_expiry cv_wait_for].
  run. reflexivity.
Qed.

(** The construction scenario: a pool of three copies of [v]. *)
Example scenario_pool_of_three (v : T) (alloc : Alloc) :
  ∃ w',
    (id <- object_pool_count_value 3 v alloc ;;
     s0 <- size id ;; c0 <- capacity id ;; u0 <- in_use id ;;
     h <- acquire id ;;
     s1 <- size id ;; u1 <- in_use id ;;
     acquired_object_dtor h ;;;
     s2 <- size id ;; u2 <- in_use id ;;
     ret (s0, c0, u0, neq_none h, s1, u1, s2, u2)) (World ∅ 0 1 [])
    = Ok ((3, 3, false, true, 2, true, 3, false), w').
Proof. eexists. vm_compute. reflexivity. Qed.

(** Outside the scope of [reachable_invariant]: [resize] while an object is
    lent overwrites [m_managed_count]; once the handle is dropped more
    objects are free than managed, and the unsigned subtraction in
    [in_use()] wraps. *)
Example resize_while_lent (v : T) (alloc : Alloc) :
  ∃ w',
    (id <- object_pool_count_value 3 v alloc ;;
     h <- acquire id ;;
     resize 2 id ;;;
     u1 <- in_use id ;;
     acquired_object_dtor h ;;;
     s <- size id ;; m <- managed_count id ;; u2 <- in_use id ;;
     ret (u1, s, m, u2)) (World ∅ 0 1 [])
    = Ok ((false, 3, 2, true), w').
Proof. eexists. vm_compute. reflexivity. Qed.

(** * Further properties of the code *)

(** ** reserve *)

Lemma reserve_result (this : pool_id) (new_cap : size_type) (w : world) (p : impl) :
  pools w !! this = Some p →
  reserve this new_cap w =
    if m_capacity p <? new_cap then
      if new_cap <=? INT_MAX then
        let n := N.to_nat (new_cap - m_capacity p) in
        let slots := fresh_addrs n (next_addr w) in
        Ok (tt, World
                  (<[this := Impl (m_managed_count p) new_cap (m_allocator p)
                                  (rev slots ++ m_allocated_space p)
                                  (m_free_objects p)]> (pools w))
                  (next_pool w) (advance n (next_addr w))
                  (log w ++ map (EvAllocate (m_allocator p)) slots))
      else Undefined
    else Ok (tt, w).
Proof.
  intros Hp. unfold reserve. run.
  destruct (m_capacity p <? new_cap); run; [|reflexivity].
  destruct (new_cap <=? INT_MAX); run; [|reflexivity].
  rewrite (allocate_slots_ok this _ w p Hp). run.
  rewrite insert_insert_eq. reflexivity.
Qed.

(** X1. [reserve(new_cap)] never shrinks and never touches the objects: when
    [new_cap] exceeds the capacity it stacks [new_cap - capacity] fresh raw
    slots and stores [new_cap]; otherwise the state is unchanged.  Growth
    beyond [INT_MAX] overflows the [int] loop counter. *)
Theorem reserve_spec (this : pool_id) (new_cap : size_type) (w : world) (p : impl) :
  pools w !! this = Some p →
  reserve this new_cap w =
    if m_capacity p <? new_cap then
      if new_cap <=? INT_MAX then
        let n := N.to_nat (new_cap - m_capacity p) in
        let slots := fresh_addrs n (next_addr w) in
        Ok (tt, World
                  (<[this := Impl (m_managed_count p) new_cap (m_allocator p)
                                  (rev slots ++ m_allocated_space p)
                                  (m_free_objects p)]> (pools w))
                  (next_pool w) (advance n (next_addr w))
                  (log w ++ map (EvAllocate (m_allocator p)) slots))
      else Undefined
    else Ok (tt, w).
Proof.
  intros Hp. unfold reserve. run.
  destruct (m_capacity p <? new_cap); run; [|reflexivity].
  destruct (new_cap <=? INT_MAX); run; [|reflexivity].
  rewrite (allocate_slots_ok this _ w p Hp). run.
  rewrite insert_insert_eq. reflexivity.
Qed.

(** ** The constructors with an initial size *)

(** X2. [object_pool(count, value)] and [object_pool(count)] allocate and
    construct [count] objects, all free, with capacity and managed count
    [count] and no uninitialised slot: [size() == capacity() ==
    managed_count() == count] and [in_use()] is false. *)
Theorem count_pool_spec (count : size_type) (value : T) (alloc : Alloc) (w : world) :
  let n := N.to_nat count in
  let objs := fresh_addrs n (next_addr w) in
  let this := next_pool w in
  object_pool_count count alloc = object_pool_count_value count T_default alloc
  ∧ ∃ w',
      object_pool_count_value count value alloc w = Ok (this, w')
      ∧ pools w' !! this = Some (Impl count count alloc [] (rev objs))
      ∧ log w' = log w ++ flat_map (λ o, [EvAllocate alloc o; EvConstruct o value]) objs
      ∧ size this w' = Ok (count, w')
      ∧ capacity this w' = Ok (count, w')
      ∧ managed_count this w' = Ok (count, w')
      ∧ in_use this w' = Ok (false, w').
Proof.
  intros n objs this. split; [reflexivity|].
  unfold object_pool_count_value, impl_new_count_value, make_shared. run.
  erewrite construct_objects_ok by (reduce; apply lookup_insert_eq).
  run. rewrite insert_insert_eq, app_nil_r. fold n objs.
  eexists. split; [reflexivity|]. run.
  assert (Hsize : stack_size (rev objs) = count).
  { unfold stack_size, objs. rewrite length_rev, length_fresh_addrs. unfold n. lia. }
  rewrite Hsize, size_sub_diag. repeat split.
Qed.

(** ** in_use *)

Lemma size_sub_zero_iff (a b : size_type) :
  a < size_modulus → b < size_modulus → (size_sub a b = 0 ↔ a = b).
Proof.
  unfold size_sub, size_modulus. intros Ha Hb. split; [|intros ->; rewrite Z.sub_diag; reflexivity].
  intros H.
  destruct (Z.lt_ge_cases (Z.of_N a) (Z.of_N b)) as [Hlt|Hge].
  - exfalso.
    assert ((Z.of_N a - Z.of_N b) mod Z.of_N (2 ^ 64)
            = Z.of_N a - Z.of_N b + Z.of_N (2 ^ 64))%Z as Hmod.
    { symmetry. apply (Z.mod_unique _ _ (-1)); lia. }
    rewrite Hmod in H. lia.
  - rewrite Z.mod_small in H by lia. lia.
Qed.

(** X3. [in_use()] compares by an unsigned subtraction: it is true exactly
    when [m_managed_count] differs from the number of free objects, also
    when more objects are free than managed. *)
Theorem in_use_spec (this : pool_id) (w : world) (p : impl) :
  pools w !! this = Some p →
  m_managed_count p < size_modulus →
  stack_size (m_free_objects p) < size_modulus →
  in_use this w =
    Ok (negb (m_managed_count p =? stack_size (m_free_objects p)), w).
Proof.
  intros Hp Hmc Hsize. run. do 2 f_equal.
  pose proof (size_sub_zero_iff _ _ Hmc Hsize) as Hiff.
  destruct (m_managed_count p =? stack_size (m_free_objects p)) eqn:Heq; cbn [negb].
  - apply N.eqb_eq in Heq. apply Hiff in Heq. rewrite Heq. reflexivity.
  - apply N.eqb_neq in Heq. apply N.ltb_lt.
    destruct (N.eq_dec (size_sub (m_managed_count p) (stack_size (m_free_objects p))) 0)
      as [Hz|Hnz]; [apply Hiff in Hz; contradiction | lia].
Qed.

(** ** Releasing a handle *)

(** X4. Destroying an initialised handle, or assigning [none] to it, pushes
    its object on top of the free list of the pool it came from and notifies
    one waiter; nothing else changes.  The assignment leaves the handle
    empty. *)
Theorem handle_release_spec (h : acquired_object) (id : pool_id) (w : world) (p : impl) :
  m_is_initialized h = true →
  m_pool h = Some id →
  m_obj h ≠ nullptr →
  pools w !! id = Some p →
  let w' := World (<[id := set_free_objects (m_obj h :: m_free_objects p) p]> (pools w))
                  (next_pool w) (next_addr w) (log w ++ [EvNotifyOne id]) in
  acquired_object_dtor h w = Ok (tt, w')
  ∧ acquired_object_assign_none h w = Ok (AcquiredObject nullptr None false, w')
  ∧ return_object id (m_obj h) w = Ok (tt, w')
  ∧ size id w' = Ok (stack_size (m_free_objects p) + 1, w').
Proof.
  destruct h as [obj pool init]. cbn [m_obj m_pool m_is_initialized].
  intros -> -> Hobj Hp. apply N.eqb_neq in Hobj.
  repeat split; run; try reflexivity.
  do 2 f_equal. unfold stack_size. cbn [length]. lia.
Qed.

(** X5. Nothing is returned, and no pool is touched, when the handle is not
    initialised, holds a null pointer, or refers to no pool of the store. *)
Theorem handle_release_skips (h : acquired_object) (w : world) :
  m_is_initialized h = false
  ∨ m_obj h = nullptr
  ∨ m_pool h = None
  ∨ (∃ id, m_pool h = Some id ∧ pools w !! id = None) →
  acquired_object_dtor h w = Ok (tt, w)
  ∧ acquired_object_assign_none h w = Ok (AcquiredObject nullptr None false, w).
Proof.
  destruct h as [obj pool init]. cbn [m_obj m_pool m_is_initialized].
  intros [-> | [-> | [-> | (id & -> & Hid)]]]; run.
  - split; reflexivity.
  - destruct init; run; split; reflexivity.
  - destruct init; run; [|split; reflexivity].
    destruct (obj =? nullptr); run; split; reflexivity.
  - destruct init; run; [|split; reflexivity].
    destruct (obj =? nullptr); run; split; reflexivity.
Qed.

(** X6. Moving a handle moves the duty to return the object: the
    destination releases exactly what the source would have released, and
    the source, now empty, releases nothing. *)
Theorem move_transfers_release (h : acquired_object) (w : world) :
  let moved := acquired_object_move h in
  acquired_object_dtor (fst moved) w = acquired_object_dtor h w
  ∧ acquired_object_dtor (snd moved) w = Ok (tt, w)
  ∧ eq_none (snd moved) = true
  ∧ eq_none (fst moved) = eq_none h
  ∧ operator_arrow (fst moved) = operator_arrow h.
Proof. destruct h as [obj pool init]. repeat split. Qed.

Lemma assign_members_result (this other : handle_ref)
    (hs : gmap handle_ref acquired_object) (self source : acquired_object) :
  hs !! this = Some self →
  hs !! other = Some source →
  assign_members this other hs =
    Some (if decide (this = other)
          then <[this := AcquiredObject nullptr (m_pool self) false]> hs
          else <[other := AcquiredObject nullptr None false]>
                 (<[this := AcquiredObject (m_obj source) (m_pool source)
                                           (m_is_initialized source)]> hs)).
Proof.
  intros Hself Hsource. unfold assign_members.
  destruct (decide (this = other)) as [<-|Hne].
  - assert (source = self) as -> by congruence.
    rewrite Hself. cbn [mbind option_bind].
    rewrite !lookup_alter_eq, Hself. cbn [fmap option_fmap option_map mbind option_bind].
    rewrite !lookup_alter_eq, Hself. cbn [fmap option_fmap option_map mbind option_bind].
    f_equal. apply map_eq. intros i.
    destruct (decide (i = this)) as [->|Hi].
    + rewrite lookup_insert_eq, !lookup_alter_eq, Hself. reflexivity.
    + rewrite lookup_insert_ne, !lookup_alter_ne by congruence. reflexivity.
  - rewrite Hsource. cbn [mbind option_bind].
    rewrite !lookup_alter_ne, Hsource by congruence. cbn [mbind option_bind].
    rewrite !lookup_alter_eq, !lookup_alter_ne, Hsource by congruence.
    cbn [fmap option_fmap option_map mbind option_bind].
    f_equal. apply map_eq. intros i.
    destruct (decide (i = other)) as [->|Hio].
    + rewrite lookup_insert_eq, lookup_alter_ne, !lookup_alter_eq,
        !lookup_alter_ne, Hsource by congruence. reflexivity.
    + rewrite lookup_insert_ne by congruence.
      destruct (decide (i = this)) as [->|Hit].
      * rewrite lookup_insert_eq, lookup_alter_eq, !lookup_alter_ne,
          !lookup_alter_eq, Hself by congruence. reflexivity.
      * rewrite lookup_insert_ne, !lookup_alter_ne by congruence. reflexivity.
Qed.

(** On two distinct handles the operator on references does what
    [acquired_object_assign] does on their values. *)
Lemma operator_move_assign_distinct (this other : handle_ref)
    (hs : gmap handle_ref acquired_object) (self source : acquired_object) (w : world) :
  this ≠ other →
  hs !! this = Some self →
  hs !! other = Some source →
  operator_move_assign this other hs w =
    (r <- acquired_object_assign self source ;;
     ret (<[other := snd r]> (<[this := fst r]> hs))) w.
Proof.
  intros Hne Hself Hsource. unfold operator_move_assign, acquired_object_assign.
  rewrite Hself, (assign_members_result this other hs self source Hself Hsource).
  destruct (decide (this = other)) as [|_]; [contradiction|].
  unfold bind, ret. destruct (m_is_initialized self); [|reflexivity].
  destruct (deleter_call (m_pool self) (m_obj self) w) as [[[] w1]| | | |];
    reflexivity.
Qed.

(** X7. Move assignment to an initialised handle first returns the object
    the handle owned to its pool.  From another handle it then takes over
    that handle's object, pool and state and leaves it empty; from itself
    ([h = std::move(h)]) it ends empty, keeping only its pool pointer, while
    its object is on the free list. *)
Theorem handle_assign_spec (this other : handle_ref)
    (hs : gmap handle_ref acquired_object) (self source : acquired_object)
    (id : pool_id) (w : world) (p : impl) :
  hs !! this = Some self →
  hs !! other = Some source →
  m_is_initialized self = true →
  m_pool self = Some id →
  m_obj self ≠ nullptr →
  pools w !! id = Some p →
  operator_move_assign this other hs w =
    Ok (if decide (this = other)
        then <[this := AcquiredObject nullptr (Some id) false]> hs
        else <[other := AcquiredObject nullptr None false]>
               (<[this := AcquiredObject (m_obj source) (m_pool source)
                                         (m_is_initialized source)]> hs),
        World (<[id := set_free_objects (m_obj self :: m_free_objects p) p]> (pools w))
              (next_pool w) (next_addr w) (log w ++ [EvNotifyOne id])).
Proof.
  intros Hself Hsource Hinit Hpool Hobj Hp. apply N.eqb_neq in Hobj.
  unfold operator_move_assign.
  rewrite Hself, (assign_members_result this other hs self source Hself Hsource).
  rewrite Hinit, Hpool. run. reflexivity.
Qed.

(** Move assignment to an empty handle touches no pool. *)
Theorem handle_assign_to_empty (self other : acquired_object) (w : world) :
  m_is_initialized self = false →
  acquired_object_assign self other w =
    Ok ((AcquiredObject (m_obj other) (m_pool other) (m_is_initialized other),
         AcquiredObject nullptr None false), w).
Proof.
  destruct self as [obj pool init]. cbn [m_is_initialized]. intros ->. run. reflexivity.
Qed.

(** ** What each call computes

    The calls as equations between the state before and the outcome; the
    theorems below are read off them. *)

Lemma acquire_result (this : pool_id) (w : world) (p : impl) :
  pools w !! this = Some p →
  acquire this w =
    match m_free_objects p with
    | [] => Ok (acquired_object_none, w)
    | top :: rest =>
        if top =? nullptr then AssertFail
        else Ok (AcquiredObject top (Some this) true,
                 World (<[this := set_free_objects rest p]> (pools w))
                       (next_pool w) (next_addr w) (log w))
    end.
Proof.
  intros Hp. destruct (m_free_objects p) as [|top rest] eqn:Hfree.
  - run. reflexivity.
  - run. destruct (top =? nullptr); run; reflexivity.
Qed.

Lemma allocate_result (v : T) (this : pool_id) (w : world) (p : impl) :
  pools w !! this = Some p →
  allocate v this w =
    match m_free_objects p with
    | [] =>
        let obj := Npos (next_addr w) in
        Ok (AcquiredObject obj (Some this) true,
            World (<[this := set_managed_count (size_incr (m_managed_count p)) p]> (pools w))
                  (next_pool w) (Pos.succ (next_addr w))
                  (log w ++ [EvAllocate (m_allocator p) obj; EvConstruct obj v]))
    | top :: rest =>
        if top =? nullptr then AssertFail
        else Ok (AcquiredObject top (Some this) true,
                 World (<[this := set_free_objects rest p]> (pools w))
                       (next_pool w) (next_addr w) (log w))
    end.
Proof.
  intros Hp. destruct (m_free_objects p) as [|top rest] eqn:Hfree.
  - run. rewrite <- app_assoc. reflexivity.
  - run. destruct (top =? nullptr); run; reflexivity.
Qed.

Lemma return_object_result (this : pool_id) (obj : pointer) (w : world) (p : impl) :
  pools w !! this = Some p →
  return_object this obj w =
    if obj =? nullptr then AssertFail
    else Ok (tt, World (<[this := set_free_objects (obj :: m_free_objects p) p]> (pools w))
                       (next_pool w) (next_addr w) (log w ++ [EvNotifyOne this])).
Proof. intros Hp. run. destruct (obj =? nullptr); run; reflexivity. Qed.

Lemma push_result (value : T) (this : pool_id) (w : world) (p : impl) :
  pools w !! this = Some p →
  let full := m_managed_count p =? m_capacity p in
  let n := if full then N.to_nat (size_mul (m_capacity p) 2 - m_capacity p) else 0%nat in
  let new_cap := if full then size_mul (m_capacity p) 2 else m_capacity p in
  let fresh := fresh_addrs n (next_addr w) in
  push value this w =
    match rev fresh ++ m_allocated_space p with
    | [] => Undefined
    | obj :: rest =>
        Ok (tt, World
                  (<[this := Impl (size_incr (m_managed_count p)) new_cap (m_allocator p)
                                  rest (obj :: m_free_objects p)]> (pools w))
                  (next_pool w) (advance n (next_addr w))
                  (log w ++ map (EvAllocate (m_allocator p)) fresh
                         ++ [EvConstruct obj value; EvNotifyOne this]))
    end.
Proof.
  intros Hp. unfold push, reallocate. run.
  destruct (m_managed_count p =? m_capacity p); run.
  - rewrite (allocate_slots_ok this _ w p Hp). run.
    destruct (rev _ ++ m_allocated_space p) as [|obj rest]; run; [reflexivity|].
    rewrite !insert_insert_eq, <- !app_assoc. reflexivity.
  - cbn [fresh_addrs rev app map advance].
    destruct (m_allocated_space p) as [|obj rest] eqn:Hspace; run; [reflexivity|].
    rewrite !insert_insert_eq, <- !app_assoc. reflexivity.
Qed.

Lemma resize_value_result (count : size_type) (value : T) (this : pool_id)
    (w : world) (p : impl) :
  pools w !! this = Some p →
  let size := stack_size (m_free_objects p) in
  let grows := m_capacity p <? count in
  let n := if grows then N.to_nat (count - m_capacity p) else 0%nat in
  let new_cap := if grows then count else m_capacity p in
  let fresh := fresh_addrs n (next_addr w) in
  let slots := rev fresh ++ m_allocated_space p in
  resize_value count value this w =
    if size <? count then
      let k := N.to_nat (count - size) in
      if (k <=? length slots)%nat then
        Ok (tt, World
                  (<[this := Impl count new_cap (m_allocator p) (drop k slots)
                                  (rev (take k slots) ++ m_free_objects p)]> (pools w))
                  (next_pool w) (advance n (next_addr w))
                  (log w ++ map (EvAllocate (m_allocator p)) fresh
                         ++ map (λ o, EvConstruct o value) (take k slots)))
      else Undefined
    else
      let k := N.to_nat (size - count) in
      Ok (tt, World
                (<[this := Impl count (m_capacity p) (m_allocator p)
                                (rev (take k (m_free_objects p)) ++ m_allocated_space p)
                                (drop k (m_free_objects p))]> (pools w))
                (next_pool w) (next_addr w)
                (log w ++ map EvDestroy (take k (m_free_objects p)))).
Proof.
  intros Hp size grows n new_cap fresh slots. subst size grows n new_cap fresh slots.
  unfold resize_value, reallocate. run.
  destruct (stack_size (m_free_objects p) <? count) eqn:Hgrow; run.
  - set (k := N.to_nat (count - stack_size (m_free_objects p))).
    destruct (m_capacity p <? count) eqn:Hcap; run.
    + rewrite (allocate_slots_ok this _ w p Hp). run. rewrite insert_insert_eq.
      destruct (k <=? length _)%nat eqn:Hk.
      * apply Nat.leb_le in Hk.
        erewrite resize_grow_ok by (reduce; first [apply lookup_insert_eq | exact Hk]).
        run. rewrite !insert_insert_eq, <- !app_assoc. reflexivity.
      * apply Nat.leb_gt in Hk.
        erewrite resize_grow_short by (reduce; first [apply lookup_insert_eq | exact Hk]).
        reflexivity.
    + cbn [fresh_addrs rev app map advance].
      destruct (k <=? length _)%nat eqn:Hk.
      * apply Nat.leb_le in Hk.
        rewrite (resize_grow_ok this value k w p Hp Hk).
        run. rewrite !insert_insert_eq. reflexivity.
      * apply Nat.leb_gt in Hk.
        rewrite (resize_grow_short this value k w p Hp Hk). reflexivity.
  - apply N.ltb_ge in Hgrow.
    rewrite (resize_shrink_ok this _ w p Hp) by (unfold stack_size in *; lia).
    run. rewrite insert_insert_eq. reflexivity.
Qed.

(** ** push on a pool that is not full *)

(** X9. When [m_managed_count != m_capacity], [push] (and [emplace]) takes
    the top raw slot without allocating or changing the capacity; when the
    stack of raw slots is empty the call is undefined ([top()] of an empty
    stack), which the counters alone do not exclude. *)
Theorem push_not_full_spec (value : T) (this : pool_id) (w : world) (p : impl) :
  pools w !! this = Some p →
  m_managed_count p ≠ m_capacity p →
  push value this w =
    match m_allocated_space p with
    | [] => Undefined
    | obj :: rest =>
        Ok (tt, World
                  (<[this := Impl (size_incr (m_managed_count p)) (m_capacity p)
                                  (m_allocator p) rest (obj :: m_free_objects p)]>
                     (pools w))
                  (next_pool w) (next_addr w)
                  (log w ++ [EvConstruct obj value; EvNotifyOne this]))
    end
  ∧ emplace value this w = push value this w
  ∧ push_move value this w = push value this w.
Proof.
  intros Hp Hfull. apply N.eqb_neq in Hfull.
  split; [|split; reflexivity].
  rewrite (push_result value this w p Hp). rewrite Hfull.
  cbn [fresh_addrs rev app map advance]. reflexivity.
Qed.

(** X10. Whenever [push] returns, an [acquire] that follows hands out the
    object just pushed: the free list is a stack.  After the pair the free
    list is what it was and one more object is managed. *)
Theorem push_then_acquire (value : T) (this : pool_id) (w w1 : world) (p : impl) :
  pools w !! this = Some p →
  nonnull_stack (m_allocated_space p) →
  push value this w = Ok (tt, w1) →
  ∃ obj w2 p2,
    acquire this w1 = Ok (AcquiredObject obj (Some this) true, w2)
    ∧ (∃ before, log w1 = before ++ [EvConstruct obj value; EvNotifyOne this])
    ∧ pools w2 !! this = Some p2
    ∧ m_free_objects p2 = m_free_objects p
    ∧ m_managed_count p2 = size_incr (m_managed_count p).
Proof.
  intros Hp Hnn. rewrite (push_result value this w p Hp).
  set (n := if m_managed_count p =? m_capacity p then _ else _).
  destruct (rev (fresh_addrs n (next_addr w)) ++ m_allocated_space p)
    as [|obj rest] eqn:Hslots; [discriminate|].
  intros [= <-].
  assert (Hobj : obj ≠ nullptr).
  { assert (nonnull_stack (obj :: rest)) as Hall
      by (rewrite <- Hslots; apply Forall_app_2;
          [apply Forall_rev, fresh_addrs_nonnull | exact Hnn]).
    apply Forall_cons_1 in Hall. apply Hall. }
  apply N.eqb_neq in Hobj.
  erewrite acquire_result by (reduce; apply lookup_insert_eq).
  reduce. rewrite Hobj.
  do 3 eexists. split; [reflexivity|]. reduce. rewrite lookup_insert_eq.
  split; [eexists; rewrite app_assoc; reflexivity|].
  split; [reflexivity|]. split; reflexivity.
Qed.

(** ** resize, growing *)

(** X11. Growing: when [count] exceeds the number of free objects and the
    free objects and raw slots together cover [min(count, capacity)],
    [resize] returns; it allocates [count - capacity] slots if that is
    positive, constructs [count - size] objects on top of the free list, and
    leaves [size() == managed_count() == count] and
    [capacity() == max(capacity, count)]. *)
Theorem resize_grow_spec (count : size_type) (value : T) (this : pool_id)
    (w : world) (p : impl) :
  pools w !! this = Some p →
  stack_size (m_free_objects p) < count →
  N.min count (m_capacity p)
    ≤ stack_size (m_free_objects p) + stack_size (m_allocated_space p) →
  ∃ w' added rest,
    resize_value count value this w = Ok (tt, w')
    ∧ resize count this w = resize_value count T_default this w
    ∧ pools w' !! this =
        Some (Impl count (N.max (m_capacity p) count) (m_allocator p) rest
                   (added ++ m_free_objects p))
    ∧ stack_size added = count - stack_size (m_free_objects p)
    ∧ stack_size (added ++ m_free_objects p) = count
    ∧ (∃ allocations,
         log w' = log w ++ allocations ++ map (λ o, EvConstruct o value) (rev added)
         ∧ N.of_nat (length allocations) = count - m_capacity p).
Proof.
  intros Hp Hgrow Hcover.
  rewrite (resize_value_result count value this w p Hp). cbv zeta.
  apply N.ltb_lt in Hgrow as Hgrowb. rewrite Hgrowb.
  set (n := if m_capacity p <? count then _ else _).
  set (slots := rev (fresh_addrs n (next_addr w)) ++ m_allocated_space p).
  set (k := N.to_nat (count - stack_size (m_free_objects p))).
  assert (Hlen : length slots = (n + length (m_allocated_space p))%nat)
    by (unfold slots; rewrite length_app, length_rev, length_fresh_addrs; reflexivity).
  assert (Hk : (k ≤ length slots)%nat).
  { rewrite Hlen. unfold k, n, stack_size in *.
    destruct (m_capacity p <? count) eqn:Hcap;
      [apply N.ltb_lt in Hcap | apply N.ltb_ge in Hcap]; lia. }
  apply Nat.leb_le in Hk as Hkb. rewrite Hkb.
  exists (World (<[this := Impl count (if m_capacity p <? count then count else m_capacity p)
                             (m_allocator p) (drop k slots)
                             (rev (take k slots) ++ m_free_objects p)]> (pools w))
                (next_pool w) (advance n (next_addr w))
                (log w ++ map (EvAllocate (m_allocator p)) (fresh_addrs n (next_addr w))
                       ++ map (λ o, EvConstruct o value) (take k slots))),
         (rev (take k slots)), (drop k slots).
  split; [reflexivity|]. split; [reflexivity|].
  assert (Hadded : stack_size (rev (take k slots))
                   = count - stack_size (m_free_objects p)).
  { unfold stack_size in *. rewrite length_rev, length_take. unfold k in *. lia. }
  split.
  { reduce. rewrite lookup_insert_eq. do 2 f_equal.
    destruct (m_capacity p <? count) eqn:Hcap;
      [apply N.ltb_lt in Hcap | apply N.ltb_ge in Hcap]; lia. }
  split; [exact Hadded|].
  split.
  { unfold stack_size in *. rewrite length_app. lia. }
  exists (map (EvAllocate (m_allocator p)) (fresh_addrs n (next_addr w))).
  split; [reduce; rewrite rev_involutive; reflexivity|].
  rewrite length_map, length_fresh_addrs. unfold n.
  destruct (m_capacity p <? count) eqn:Hcap;
    [apply N.ltb_lt in Hcap | apply N.ltb_ge in Hcap]; lia.
Qed.

(** X12. Growing while objects are lent: when the free objects and raw
    slots together fall short of [min(count, capacity)], [resize] runs out
    of raw slots and calls [top()] on the empty stack. *)
Theorem resize_grow_undefined (count : size_type) (value : T) (this : pool_id)
    (w : world) (p : impl) :
  pools w !! this = Some p →
  stack_size (m_free_objects p) < count →
  stack_size (m_free_objects p) + stack_size (m_allocated_space p)
    < N.min count (m_capacity p) →
  resize_value count value this w = Undefined
  ∧ resize count this w = Undefined.
Proof.
  intros Hp Hgrow Hshort.
  assert (∀ v, resize_value count v this w = Undefined) as Hall.
  { intros v. rewrite (resize_value_result count v this w p Hp). cbv zeta.
    apply N.ltb_lt in Hgrow as Hgrowb. rewrite Hgrowb.
    set (n := if m_capacity p <? count then _ else _).
    set (k := N.to_nat (count - stack_size (m_free_objects p))).
    assert (Hk : (length (rev (fresh_addrs n (next_addr w)) ++ m_allocated_space p) < k)%nat).
    { rewrite length_app, length_rev, length_fresh_addrs. unfold k, n, stack_size in *.
      destruct (m_capacity p <? count) eqn:Hcap;
        [apply N.ltb_lt in Hcap | apply N.ltb_ge in Hcap]; lia. }
    apply Nat.leb_gt in Hk. rewrite Hk. reflexivity. }
  split; [apply Hall | apply (Hall T_default)].
Qed.

(** ** allocate, release, acquire *)

(** X13. An object that [allocate] created because no object was free is
    recycled: once its handle is destroyed the object is the one free
    object, and the next [acquire] returns it without any allocation. *)
Theorem allocate_release_recycles (v : T) (this : pool_id) (w : world) (p : impl) :
  pools w !! this = Some p →
  m_free_objects p = [] →
  ∃ h w1 w2 w3,
    allocate v this w = Ok (h, w1)
    ∧ m_obj h = Npos (next_addr w)
    ∧ acquired_object_dtor h w1 = Ok (tt, w2)
    ∧ size this w2 = Ok (1, w2)
    ∧ acquire this w2 = Ok (h, w3)
    ∧ next_addr w3 = next_addr w1
    ∧ size this w3 = Ok (0, w3).
Proof.
  intros Hp Hfree.
  rewrite (allocate_result v this w p Hp), Hfree. cbv zeta.
  assert (Hobj : (N.pos (next_addr w) =? nullptr) = false) by reflexivity.
  do 4 eexists. split; [reflexivity|]. split; [reflexivity|].
  split; [run; reflexivity|].
  split; [run; reflexivity|].
  split; [run; reflexivity|].
  split; [reflexivity|]. run. reflexivity.
Qed.

(** ** swap, twice *)

(** X14. Swapping two distinct cores twice restores the whole state. *)
Theorem swap_involution (this other : pool_id) (w : world) (a b : impl) :
  this ≠ other →
  pools w !! this = Some a →
  pools w !! other = Some b →
  (swap this other ;;; swap this other) w = Ok (tt, w).
Proof.
  intros Hne Ha Hb. unfold swap.
  apply N.eqb_neq in Hne as Hneb. rewrite Hneb. apply N.eqb_neq in Hneb.
  run. destruct w as [ps np na lg]. cbn [pools] in *. do 2 f_equal.
  f_equal. apply map_eq. intros i.
  destruct (decide (i = other)) as [->|Hio];
    [rewrite lookup_insert_eq, Hb; destruct b; reflexivity|].
  rewrite lookup_insert_ne by congruence.
  destruct (decide (i = this)) as [->|Hit];
    [rewrite lookup_insert_eq, Ha; destruct a; reflexivity|].
  rewrite !lookup_insert_ne by congruence. reflexivity.
Qed.

(** ** acquire_wait without a time limit *)

(** X15. With the limit 0 and a free object at the call, [acquire_wait]
    does not wait: it pops the top object, notifies one waiter and returns
    the bound handle, whatever other threads would have done. *)
Theorem acquire_wait_untimed_immediate (env : schedule) (this : pool_id) (w : world)
    (p : impl) (top : pointer) (rest : list pointer) :
  pools w !! this = Some p →
  m_free_objects p = top :: rest →
  top ≠ nullptr →
  acquire_wait env this 0%Z w =
    Ok (AcquiredObject top (Some this) true,
        World (<[this := set_free_objects rest p]> (pools w))
              (next_pool w) (next_addr w) (log w ++ [EvNotifyOne this])).
Proof.
  intros Hp Hfree Htop. apply N.eqb_neq in Htop.
  unfold acquire_wait. cbn [Z.eqb].
  destruct (wakeups env); cbn [cv_wait]; run; reflexivity.
Qed.

Lemma cv_wait_blocks (this : pool_id) (rounds : list (M unit)) :
  Forall (keeps_free_empty this) rounds →
  ∀ (w : world) (p : impl),
    pools w !! this = Some p → m_free_objects p = [] →
    cv_wait (e <- free_objects_empty this ;; ret (negb e)) rounds w = Blocked.
Proof.
  induction 1 as [|others rest Hothers _ IH]; intros w p Hp Hfree; cbn [cv_wait].
  - run. reflexivity.
  - destruct (Hothers w p Hp Hfree) as (w1 & p1 & Hrun & Hp1 & Hfree1).
    specialize (IH w1 p1 Hp1 Hfree1).
    run. rewrite Hrun. exact IH.
Qed.

(** X16. With the limit 0, an empty free list, and no thread that ever
    makes an object free, [acquire_wait] never returns. *)
Theorem acquire_wait_untimed_blocks (env : schedule) (this : pool_id) (w : world)
    (p : impl) :
  pools w !! this = Some p →
  m_free_objects p = [] →
  Forall (keeps_free_empty this) (wakeups env) →
  acquire_wait env this 0%Z w = Blocked.
Proof.
  intros Hp Hfree Hrounds. unfold acquire_wait. cbn [Z.eqb].
  pose proof (cv_wait_blocks this (wakeups env) Hrounds w p Hp Hfree) as Hwait.
  unfold bind at 1. unfold bind at 1. rewrite Hwait. reflexivity.
Qed.

(** X17. With the limit 0 and an empty free list, an object returned by
    another thread before the first wake-up is handed out: the call returns
    a handle bound to it and the pool is as before. *)
Theorem acquire_wait_untimed_gets_returned (this : pool_id) (obj : pointer)
    (later : list (M unit)) (expiry : M unit) (w : world) (p : impl) :
  pools w !! this = Some p →
  m_free_objects p = [] →
  obj ≠ nullptr →
  acquire_wait (Schedule (return_object this obj :: later) expiry) this 0%Z w =
    Ok (AcquiredObject obj (Some this) true,
        World (pools w) (next_pool w) (next_addr w)
              (log w ++ [EvNotifyOne this; EvNotifyOne this])).
Proof.
  intros Hp Hfree Hobj. apply N.eqb_neq in Hobj.
  unfold acquire_wait. cbn [Z.eqb wakeups cv_wait]. run.
  destruct later; cbn [cv_wait]; run;
    rewrite insert_insert_eq, <- app_assoc;
    (replace (set_free_objects [] (set_free_objects [obj] p)) with p
      by (destruct p; cbn in *; subst; reflexivity));
    rewrite insert_id by exact Hp; reflexivity.
Qed.

(** ** The destructor of the core *)

Lemma dtor_release_slots_ok (this : pool_id) (n : nat) :
  ∀ (w : world) (p : impl),
    pools w !! this = Some p →
    (n ≤ length (m_allocated_space p))%nat →
    dtor_release_slots n this w =
      Ok (take n (m_allocated_space p),
          World (<[this := set_allocated_space (drop n (m_allocated_space p)) p]> (pools w))
                (next_pool w) (next_addr w) (log w)).
Proof.
  induction n as [|n IH]; intros w p Hp Hn.
  - cbn [dtor_release_slots take drop]. unfold ret, set_allocated_space.
    rewrite impl_eta. rewrite insert_id by exact Hp. destruct w; reflexivity.
  - destruct (m_allocated_space p) as [|top rest] eqn:Hspace; [cbn in Hn; lia|].
    cbn [dtor_release_slots]. run.
    erewrite IH by (reduce; first [apply lookup_insert_eq | cbn in Hn; lia]).
    reduce. rewrite insert_insert_eq. reflexivity.
Qed.

(** X18. The destructor of the core runs the destructor of every free
    object, top first, then deallocates every slot of both stacks exactly
    once; both stacks end empty.  What is lent at that moment is neither
    destroyed nor deallocated. *)
Theorem impl_dtor_spec (this : pool_id) (w : world) (p : impl) :
  pools w !! this = Some p →
  impl_dtor this w =
    Ok (rev (m_free_objects p) ++ m_allocated_space p,
        World (<[this := Impl (m_managed_count p) (m_capacity p) (m_allocator p) [] []]>
                 (pools w))
              (next_pool w) (next_addr w)
              (log w ++ map EvDestroy (m_free_objects p)))
  ∧ rev (m_free_objects p) ++ m_allocated_space p
      ≡ₚ m_free_objects p ++ m_allocated_space p.
Proof.
  intros Hp. split.
  - unfold impl_dtor. run.
    change dtor_release_objects with resize_shrink.
    rewrite (resize_shrink_ok this _ w p Hp) by reflexivity.
    run. rewrite firstn_all, drop_all.
    erewrite dtor_release_slots_ok by (reduce; first [apply lookup_insert_eq | reflexivity]).
    reduce. rewrite firstn_all, drop_all, insert_insert_eq. reflexivity.
  - apply Permutation_app_tail. symmetry. apply Permutation_rev.
Qed.

(** ** Ownership of addresses across the calls of a client *)

Lemma lent_delete (handles : list acquired_object) :
  ∀ (i : nat) (h : acquired_object),
    handles !! i = Some h →
    lent handles
      ≡ₚ (if m_is_initialized h then [m_obj h] else []) ++ lent (delete i handles).
Proof.
  induction handles as [|a rest IH]; intros [|i] h Hi; cbn in Hi; try discriminate.
  - injection Hi as ->. cbn [lent delete]. destruct (m_is_initialized h); reflexivity.
  - specialize (IH i h Hi).
    change (delete (S i) (a :: rest)) with (a :: delete i rest). cbn [lent].
    destruct (m_is_initialized a); rewrite IH;
      destruct (m_is_initialized h); solve_Permutation.
Qed.

Lemma advance_succ (n : nat) : ∀ a, advance n (Pos.succ a) = Pos.succ (advance n a).
Proof. induction n as [|n IH]; intros a; cbn [advance]; [reflexivity | apply IH]. Qed.

Lemma client_step_owned (this : pool_id) (op : client_op)
    (handles handles' : list acquired_object) (w w' : world) (p : impl) :
  pools w !! this = Some p →
  handles_of this handles →
  client_step this op handles w = Ok (handles', w') →
  ∃ p' n,
    pools w' !! this = Some p'
    ∧ next_addr w' = advance n (next_addr w)
    ∧ owned handles' p' ≡ₚ fresh_addrs n (next_addr w) ++ owned handles p
    ∧ handles_of this handles'.
Proof.
  intros Hp Hhs Hstep. unfold owned.
  destruct op; cbn [client_step] in Hstep.
  - (* acquire *)
    apply bind_ok_inv in Hstep as (h & w1 & Hcall & [= <- <-]).
    rewrite (acquire_result this w p Hp) in Hcall.
    destruct (m_free_objects p) as [|top rest] eqn:Hfree.
    + injection Hcall as <- <-. exists p, 0%nat.
      split; [exact Hp|]. split; [reflexivity|]. rewrite Hfree.
      split; [reflexivity|]. apply Forall_cons_2; [discriminate | exact Hhs].
    + destruct (top =? nullptr) eqn:Htop; [discriminate|]. apply N.eqb_neq in Htop.
      injection Hcall as <- <-. exists (set_free_objects rest p), 0%nat.
      reduce. rewrite lookup_insert_eq.
      split; [reflexivity|]. split; [reflexivity|].
      split; [cbn [lent m_is_initialized m_obj fresh_addrs app]; solve_Permutation|].
      apply Forall_cons_2; [intros _; split; [reflexivity | exact Htop] | exact Hhs].
  - (* allocate *)
    apply bind_ok_inv in Hstep as (h & w1 & Hcall & [= <- <-]).
    rewrite (allocate_result args this w p Hp) in Hcall.
    destruct (m_free_objects p) as [|top rest] eqn:Hfree.
    + cbv zeta in Hcall. injection Hcall as <- <-.
      exists (set_managed_count (size_incr (m_managed_count p)) p), 1%nat.
      reduce. rewrite lookup_insert_eq, Hfree.
      split; [reflexivity|]. split; [reflexivity|].
      split; [cbn [lent m_is_initialized m_obj fresh_addrs app]; reflexivity|].
      apply Forall_cons_2; [intros _; split; [reflexivity | discriminate] | exact Hhs].
    + destruct (top =? nullptr) eqn:Htop; [discriminate|]. apply N.eqb_neq in Htop.
      injection Hcall as <- <-. exists (set_free_objects rest p), 0%nat.
      reduce. rewrite lookup_insert_eq.
      split; [reflexivity|]. split; [reflexivity|].
      split; [cbn [lent m_is_initialized m_obj fresh_addrs app]; solve_Permutation|].
      apply Forall_cons_2; [intros _; split; [reflexivity | exact Htop] | exact Hhs].
  - (* push *)
    apply bind_ok_inv in Hstep as ([] & w1 & Hcall & [= <- <-]).
    rewrite (push_result value this w p Hp) in Hcall. cbv zeta in Hcall.
    set (n := if m_managed_count p =? m_capacity p then _ else _) in Hcall.
    destruct (rev (fresh_addrs n (next_addr w)) ++ m_allocated_space p)
      as [|obj rest] eqn:Hslots; [discriminate|].
    injection Hcall as <-. eexists _, n. reduce. rewrite lookup_insert_eq.
    split; [reflexivity|]. split; [reflexivity|]. split; [|exact Hhs].
    reduce.
    assert (fresh_addrs n (next_addr w) ++ m_allocated_space p ≡ₚ obj :: rest) as Hperm
      by (rewrite <- Hslots, <- Permutation_rev; reflexivity).
    transitivity (lent handles ++ m_free_objects p
                  ++ (fresh_addrs n (next_addr w) ++ m_allocated_space p));
      [rewrite Hperm|]; solve_Permutation.
  - (* resize *)
    apply bind_ok_inv in Hstep as ([] & w1 & Hcall & [= <- <-]).
    rewrite resize_is_resize_value in Hcall.
    rewrite (resize_value_result count T_default this w p Hp) in Hcall.
    cbv zeta in Hcall.
    set (n := if m_capacity p <? count then _ else _) in Hcall.
    set (slots := rev (fresh_addrs n (next_addr w)) ++ m_allocated_space p) in Hcall.
    destruct (stack_size (m_free_objects p) <? count).
    + destruct (_ <=? length slots)%nat; [|discriminate].
      injection Hcall as <-. eexists _, n. reduce. rewrite lookup_insert_eq.
      split; [reflexivity|]. split; [reflexivity|]. split; [|exact Hhs].
      reduce. rewrite <- Permutation_rev.
      match goal with
      | |- context [take ?k slots] =>
          transitivity (lent handles ++ m_free_objects p
                        ++ (take k slots ++ drop k slots));
            [solve_Permutation | rewrite take_drop]
      end.
      unfold slots. rewrite <- Permutation_rev. solve_Permutation.
    + injection Hcall as <-. eexists _, 0%nat. reduce. rewrite lookup_insert_eq.
      split; [reflexivity|]. split; [reflexivity|]. split; [|exact Hhs].
      reduce. rewrite <- Permutation_rev. cbn [fresh_addrs app].
      match goal with
      | |- context [take ?k (m_free_objects p)] =>
          transitivity (lent handles
                        ++ (take k (m_free_objects p) ++ drop k (m_free_objects p))
                        ++ m_allocated_space p);
            [solve_Permutation | rewrite take_drop; reflexivity]
      end.
  - (* resize with a value *)
    apply bind_ok_inv in Hstep as ([] & w1 & Hcall & [= <- <-]).
    rewrite (resize_value_result count value this w p Hp) in Hcall.
    cbv zeta in Hcall.
    set (n := if m_capacity p <? count then _ else _) in Hcall.
    set (slots := rev (fresh_addrs n (next_addr w)) ++ m_allocated_space p) in Hcall.
    destruct (stack_size (m_free_objects p) <? count).
    + destruct (_ <=? length slots)%nat; [|discriminate].
      injection Hcall as <-. eexists _, n. reduce. rewrite lookup_insert_eq.
      split; [reflexivity|]. split; [reflexivity|]. split; [|exact Hhs].
      reduce. rewrite <- Permutation_rev.
      match goal with
      | |- context [take ?k slots] =>
          transitivity (lent handles ++ m_free_objects p
                        ++ (take k slots ++ drop k slots));
            [solve_Permutation | rewrite take_drop]
      end.
      unfold slots. rewrite <- Permutation_rev. solve_Permutation.
    + injection Hcall as <-. eexists _, 0%nat. reduce. rewrite lookup_insert_eq.
      split; [reflexivity|]. split; [reflexivity|]. split; [|exact Hhs].
      reduce. rewrite <- Permutation_rev. cbn [fresh_addrs app].
      match goal with
      | |- context [take ?k (m_free_objects p)] =>
          transitivity (lent handles
                        ++ (take k (m_free_objects p) ++ drop k (m_free_objects p))
                        ++ m_allocated_space p);
            [solve_Permutation | rewrite take_drop; reflexivity]
      end.
  - (* reserve *)
    apply bind_ok_inv in Hstep as ([] & w1 & Hcall & [= <- <-]).
    rewrite (reserve_result this new_cap w p Hp) in Hcall.
    destruct (m_capacity p <? new_cap).
    + destruct (new_cap <=? INT_MAX); [|discriminate].
      cbv zeta in Hcall. injection Hcall as <-.
      eexists _, _. reduce. rewrite lookup_insert_eq.
      split; [reflexivity|]. split; [reflexivity|]. split; [|exact Hhs].
      reduce. rewrite <- Permutation_rev. solve_Permutation.
    + injection Hcall as <-. exists p, 0%nat.
      split; [exact Hp|]. split; [reflexivity|]. split; [reflexivity | exact Hhs].
  - (* drop *)
    destruct (handles !! i) as [h|] eqn:Hi.
    + apply bind_ok_inv in Hstep as ([] & w1 & Hcall & [= <- <-]).
      pose proof (lent_delete handles i h Hi) as Hlent.
      assert (Hh : m_is_initialized h = true → m_pool h = Some this ∧ m_obj h ≠ nullptr)
        by (eapply Forall_lookup_1 in Hhs; [exact Hhs | exact Hi]).
      assert (Hrest : handles_of this (delete i handles)) by (apply Forall_delete, Hhs).
      destruct h as [obj pool init]. cbn [m_is_initialized m_obj m_pool] in *.
      destruct init.
      * destruct (Hh eq_refl) as [-> Hobj]. apply N.eqb_neq in Hobj.
        revert Hcall. run. intros [= <-]. reduce. rewrite lookup_insert_eq.
        eexists _, 0%nat. split; [reflexivity|]. split; [reflexivity|].
        split; [|exact Hrest]. reduce. rewrite Hlent. solve_Permutation.
      * revert Hcall. run. intros [= <-]. exists p, 0%nat.
        split; [exact Hp|]. split; [reflexivity|].
        split; [rewrite Hlent; reflexivity | exact Hrest].
    + injection Hstep as <- <-. exists p, 0%nat.
      split; [exact Hp|]. split; [reflexivity|]. split; [reflexivity | exact Hhs].
Qed.

(** X19. No call of a client loses or duplicates an address: after the
    call the lent objects, the free objects and the raw slots together are
    those of before plus the addresses the call obtained from the
    allocator. *)
Theorem client_step_ownership (this : pool_id) (op : client_op)
    (handles handles' : list acquired_object) (w w' : world) (p : impl) :
  pools w !! this = Some p →
  handles_of this handles →
  client_step this op handles w = Ok (handles', w') →
  ∃ p' n,
    pools w' !! this = Some p'
    ∧ next_addr w' = advance n (next_addr w)
    ∧ owned handles' p' ≡ₚ fresh_addrs n (next_addr w) ++ owned handles p
    ∧ handles_of this handles'.
Proof. exact (client_step_owned this op handles handles' w w' p). Qed.

Lemma advance_le (n : nat) : ∀ a, (a ≤ advance n a)%positive.
Proof.
  induction n as [|n IH]; intros a; cbn [advance]; [lia|].
  specialize (IH (Pos.succ a)). lia.
Qed.

Lemma fresh_addrs_bounds (n : nat) :
  ∀ a, Forall (λ o, Npos a ≤ o ∧ o < Npos (advance n a)) (fresh_addrs n a).
Proof.
  induction n as [|n IH]; intros a; cbn [fresh_addrs advance]; constructor.
  - pose proof (advance_le n (Pos.succ a)). lia.
  - eapply Forall_impl; [apply IH|]. cbn. intros o. lia.
Qed.

Lemma fresh_addrs_NoDup (n : nat) : ∀ a, NoDup (fresh_addrs n a).
Proof.
  induction n as [|n IH]; intros a; cbn [fresh_addrs]; constructor; [|apply IH].
  intros Hin.
  pose proof (fresh_addrs_bounds n (Pos.succ a)) as Hb.
  rewrite Forall_forall in Hb. specialize (Hb _ Hin). lia.
Qed.

Lemma exclusive_extend (a : positive) (n : nat) (before after : list pointer) :
  NoDup before →
  Forall (λ o, o < Npos a) before →
  after ≡ₚ fresh_addrs n a ++ before →
  NoDup after ∧ Forall (λ o, o < Npos (advance n a)) after.
Proof.
  intros Hnd Hlt Hperm. rewrite Hperm. split.
  - apply NoDup_app. split; [apply fresh_addrs_NoDup|]. split; [|exact Hnd].
    intros o Hfresh Hold.
    pose proof (fresh_addrs_bounds n a) as Hb.
    rewrite Forall_forall in Hb, Hlt. specialize (Hb _ Hfresh). specialize (Hlt _ Hold).
    lia.
  - apply Forall_app_2.
    + eapply Forall_impl; [apply fresh_addrs_bounds|]. cbn. intros o. lia.
    + eapply Forall_impl; [exact Hlt|]. cbn. intros o.
      pose proof (advance_le n a). lia.
Qed.

Lemma impl_new_exclusive (alloc : Alloc) (w w' : world) (this : pool_id) :
  impl_new alloc w = Ok (this, w') → exclusive this [] w'.
Proof.
  unfold impl_new, make_shared. run.
  erewrite allocate_slots_ok by (reduce; apply lookup_insert_eq).
  run. intros [= <- <-]. unfold exclusive. reduce. rewrite lookup_insert_eq.
  eexists. split; [reflexivity|]. split; [constructor|].
  apply (exclusive_extend (next_addr w) (N.to_nat 4) []); [constructor | constructor |].
  unfold owned. reduce. cbn [lent app]. change (N.to_nat 4) with 4%nat.
  cbn [fresh_addrs app]. solve_Permutation.
Qed.

Lemma impl_new_count_value_exclusive (count : size_type) (value : T) (alloc : Alloc)
    (w w' : world) (this : pool_id) :
  impl_new_count_value count value alloc w = Ok (this, w') → exclusive this [] w'.
Proof.
  unfold impl_new_count_value, make_shared. run.
  erewrite construct_objects_ok by (reduce; apply lookup_insert_eq).
  run. intros [= <- <-]. unfold exclusive. reduce. rewrite lookup_insert_eq.
  eexists. split; [reflexivity|]. split; [constructor|].
  apply (exclusive_extend (next_addr w) (N.to_nat count) []); [constructor | constructor |].
  unfold owned. reduce. cbn [lent app]. rewrite !app_nil_r, <- Permutation_rev.
  reflexivity.
Qed.

(** X20. Exclusivity.  In every state a client reaches from a constructor,
    by any calls, the objects its handles own, the free objects and the raw
    slots are pairwise distinct addresses the allocator has handed out: no
    two handles own the same object, and no handle owns a free object. *)
Theorem client_reachable_exclusive (this : pool_id)
    (handles : list acquired_object) (w : world) :
  client_reachable any_call this handles w →
  exclusive this handles w.
Proof.
  induction 1 as [alloc w w' Hnew | count alloc w w' Hnew
                 | count value alloc w w' Hnew
                 | op handles handles' w w' p _ IH Hp _ Hstep].
  - exact (impl_new_exclusive alloc w w' this Hnew).
  - exact (impl_new_count_value_exclusive count T_default alloc w w' this Hnew).
  - exact (impl_new_count_value_exclusive count value alloc w w' this Hnew).
  - destruct IH as (p0 & Hp0 & Hhs & Hnd & Hlt).
    assert (p0 = p) as -> by congruence.
    destruct (client_step_owned this op handles handles' w w' p Hp Hhs Hstep)
      as (p' & n & Hp' & Hnext & Hperm & Hhs').
    exists p'. split; [exact Hp'|]. split; [exact Hhs'|].
    rewrite Hnext. exact (exclusive_extend (next_addr w) n _ _ Hnd Hlt Hperm).
Qed.

(** ** Conservation of the managed count *)

Lemma client_step_counting (this : pool_id) (op : client_op)
    (handles handles' : list acquired_object) (w w' : world) (p : impl) :
  pools w !! this = Some p →
  handles_of this handles →
  conserved handles p →
  counting_scope op handles p →
  client_step this op handles w = Ok (handles', w') →
  ∃ p', pools w' !! this = Some p' ∧ handles_of this handles' ∧ conserved handles' p'.
Proof.
  intros Hp Hhs Hcons Hscope Hstep.
  destruct (client_step_owned this op handles handles' w w' p Hp Hhs Hstep)
    as (p' & _ & Hp' & _ & _ & Hhs').
  exists p'. split; [exact Hp'|]. split; [exact Hhs'|].
  unfold conserved, stack_size in *.
  destruct op; cbn [client_step counting_scope] in *.
  - apply bind_ok_inv in Hstep as (h & w1 & Hcall & [= <- <-]).
    rewrite (acquire_result this w p Hp) in Hcall.
    destruct (m_free_objects p) as [|top rest] eqn:Hfree.
    + injection Hcall as <- <-. assert (p' = p) as -> by congruence.
      rewrite Hfree. cbn [lent acquired_object_none m_is_initialized]. exact Hcons.
    + destruct (top =? nullptr); [discriminate|]. injection Hcall as <- <-.
      revert Hp'. reduce. rewrite lookup_insert_eq. intros [= <-].
      cbn [lent m_is_initialized m_obj set_free_objects m_free_objects
           m_managed_count length] in *. lia.
  - apply bind_ok_inv in Hstep as (h & w1 & Hcall & [= <- <-]).
    rewrite (allocate_result args this w p Hp) in Hcall.
    destruct (m_free_objects p) as [|top rest] eqn:Hfree.
    + cbv zeta in Hcall. injection Hcall as <- <-.
      revert Hp'. reduce. rewrite lookup_insert_eq. intros [= <-].
      rewrite size_incr_small by exact Hscope.
      cbn [lent m_is_initialized m_obj set_managed_count m_free_objects
           m_managed_count length] in *. rewrite Hfree. cbn [length] in *. lia.
    + destruct (top =? nullptr); [discriminate|]. injection Hcall as <- <-.
      revert Hp'. reduce. rewrite lookup_insert_eq. intros [= <-].
      cbn [lent m_is_initialized m_obj set_free_objects m_free_objects
           m_managed_count length] in *. lia.
  - apply bind_ok_inv in Hstep as ([] & w1 & Hcall & [= <- <-]).
    rewrite (push_result value this w p Hp) in Hcall. cbv zeta in Hcall.
    destruct (rev _ ++ m_allocated_space p) as [|obj rest]; [discriminate|].
    injection Hcall as <-.
    revert Hp'. reduce. rewrite lookup_insert_eq. intros [= <-].
    rewrite size_incr_small by exact Hscope.
    cbn [m_free_objects m_managed_count length] in *. lia.
  - apply bind_ok_inv in Hstep as ([] & w1 & Hcall & [= <- <-]).
    rewrite resize_is_resize_value in Hcall.
    rewrite (resize_value_result count T_default this w p Hp) in Hcall.
    cbv zeta in Hcall. rewrite Hscope. cbn [length].
    unfold stack_size in Hcall.
    destruct (N.of_nat (length (m_free_objects p)) <? count) eqn:Hgrow.
    + apply N.ltb_lt in Hgrow.
      destruct (_ <=? _)%nat eqn:Hk; [|discriminate]. apply Nat.leb_le in Hk.
      injection Hcall as <-.
      revert Hp'. reduce. rewrite lookup_insert_eq. intros [= <-].
      cbn [m_free_objects m_managed_count].
      rewrite length_app, length_rev, length_take. lia.
    + apply N.ltb_ge in Hgrow. injection Hcall as <-.
      revert Hp'. reduce. rewrite lookup_insert_eq. intros [= <-].
      cbn [m_free_objects m_managed_count]. rewrite length_drop. lia.
  - apply bind_ok_inv in Hstep as ([] & w1 & Hcall & [= <- <-]).
    rewrite (resize_value_result count value this w p Hp) in Hcall.
    cbv zeta in Hcall. rewrite Hscope. cbn [length].
    unfold stack_size in Hcall.
    destruct (N.of_nat (length (m_free_objects p)) <? count) eqn:Hgrow.
    + apply N.ltb_lt in Hgrow.
      destruct (_ <=? _)%nat eqn:Hk; [|discriminate]. apply Nat.leb_le in Hk.
      injection Hcall as <-.
      revert Hp'. reduce. rewrite lookup_insert_eq. intros [= <-].
      cbn [m_free_objects m_managed_count].
      rewrite length_app, length_rev, length_take. lia.
    + apply N.ltb_ge in Hgrow. injection Hcall as <-.
      revert Hp'. reduce. rewrite lookup_insert_eq. intros [= <-].
      cbn [m_free_objects m_managed_count]. rewrite length_drop. lia.
  - apply bind_ok_inv in Hstep as ([] & w1 & Hcall & [= <- <-]).
    rewrite (reserve_result this new_cap w p Hp) in Hcall.
    destruct (m_capacity p <? new_cap).
    + destruct (new_cap <=? INT_MAX); [|discriminate].
      cbv zeta in Hcall. injection Hcall as <-.
      revert Hp'. reduce. rewrite lookup_insert_eq. intros [= <-].
      cbn [m_free_objects m_managed_count]. exact Hcons.
    + injection Hcall as <-. assert (p' = p) as -> by congruence. exact Hcons.
  - destruct (handles !! i) as [h|] eqn:Hi.
    + apply bind_ok_inv in Hstep as ([] & w1 & Hcall & [= <- <-]).
      pose proof (Permutation_length (lent_delete handles i h Hi)) as Hlen.
      assert (Hh : m_is_initialized h = true → m_pool h = Some this ∧ m_obj h ≠ nullptr)
        by (eapply Forall_lookup_1 in Hhs; [exact Hhs | exact Hi]).
      destruct h as [obj pool init]. cbn [m_is_initialized m_obj m_pool] in *.
      destruct init.
      * destruct (Hh eq_refl) as [-> Hobj]. apply N.eqb_neq in Hobj.
        revert Hcall. run. intros [= <-].
        revert Hp'. reduce. rewrite lookup_insert_eq. intros [= <-].
        cbn [m_free_objects m_managed_count set_free_objects length app] in *. lia.
      * revert Hcall. run. intros [= <-]. assert (p' = p) as -> by congruence.
        cbn [app] in Hlen. lia.
    + injection Hstep as <- <-. assert (p' = p) as -> by congruence. exact Hcons.
Qed.

Lemma client_reachable_counting (this : pool_id)
    (handles : list acquired_object) (w : world) :
  client_reachable counting_scope this handles w →
  ∃ p, pools w !! this = Some p ∧ handles_of this handles ∧ conserved handles p.
Proof.
  induction 1 as [alloc w w' Hnew | count alloc w w' Hnew
                 | count value alloc w w' Hnew
                 | op handles handles' w w' p _ IH Hp Hscope Hstep].
  - revert Hnew. unfold object_pool_alloc, impl_new, make_shared. run.
    erewrite allocate_slots_ok by (reduce; apply lookup_insert_eq).
    run. intros [= <- <-]. reduce. rewrite lookup_insert_eq.
    eexists. split; [reflexivity|]. split; [constructor | reflexivity].
  - revert Hnew. unfold object_pool_count, impl_new_count, make_shared. run.
    erewrite construct_objects_ok by (reduce; apply lookup_insert_eq).
    run. intros [= <- <-]. reduce. rewrite lookup_insert_eq.
    eexists. split; [reflexivity|]. split; [constructor|].
    unfold conserved, stack_size. reduce. cbn [lent length].
    rewrite length_app, length_rev, length_fresh_addrs. cbn [length]. lia.
  - revert Hnew. unfold object_pool_count_value, impl_new_count_value, make_shared. run.
    erewrite construct_objects_ok by (reduce; apply lookup_insert_eq).
    run. intros [= <- <-]. reduce. rewrite lookup_insert_eq.
    eexists. split; [reflexivity|]. split; [constructor|].
    unfold conserved, stack_size. reduce. cbn [lent length].
    rewrite length_app, length_rev, length_fresh_addrs. cbn [length]. lia.
  - destruct IH as (p0 & Hp0 & Hhs & Hcons).
    assert (p0 = p) as -> by congruence.
    exact (client_step_counting this op handles handles' w w' p Hp Hhs Hcons Hscope Hstep).
Qed.

(** X21. Conservation.  In every state a client reaches from a constructor
    by calls that do not resize while an object is lent,
    [managed_count() == size() + number of objects lent]. *)
Theorem client_reachable_conserved (this : pool_id)
    (handles : list acquired_object) (w : world) :
  client_reachable counting_scope this handles w →
  ∃ p, pools w !! this = Some p
       ∧ m_managed_count p
         = stack_size (m_free_objects p) + stack_size (lent handles).
Proof.
  intros Hreach.
  destruct (client_reachable_counting this handles w Hreach) as (p & Hp & _ & Hcons).
  exists p. split; [exact Hp | exact Hcons].
Qed.

(** X22. In those states [in_use()] tells whether the client holds an
    object: it is true exactly when some handle owns one. *)
Theorem in_use_iff_lent (this : pool_id) (handles : list acquired_object)
    (w : world) (p : impl) :
  client_reachable counting_scope this handles w →
  pools w !! this = Some p →
  m_managed_count p < size_modulus →
  in_use this w = Ok (negb (stack_empty (lent handles)), w).
Proof.
  intros Hreach Hp Hmc.
  destruct (client_reachable_counting this handles w Hreach) as (p0 & Hp0 & _ & Hcons).
  assert (p0 = p) as -> by congruence. unfold conserved in Hcons.
  run. do 2 f_equal.
  assert (Hsize : stack_size (m_free_objects p) < size_modulus) by lia.
  pose proof (size_sub_zero_iff _ _ Hmc Hsize) as Hiff.
  destruct (lent handles) as [|o rest] eqn:Hlent; cbn [stack_empty negb].
  - apply N.ltb_ge. unfold stack_size in Hcons. cbn [length] in Hcons.
    assert (m_managed_count p = stack_size (m_free_objects p)) as Heq
      by (unfold stack_size; lia).
    apply Hiff in Heq. lia.
  - apply N.ltb_lt.
    destruct (N.eq_dec (size_sub (m_managed_count p) (stack_size (m_free_objects p))) 0)
      as [Hz|Hnz]; [|lia].
    apply Hiff in Hz. unfold stack_size in *. cbn [length] in Hcons. lia.
Qed.

(** ** acquire_wait with a time limit, free list drained meanwhile *)

(** X26. With a non-zero time limit and a free object at the call,
    [acquire_wait] does not take the object but waits; when another thread
    has emptied the free list by the first wake-up, the call returns the
    "none" handle. *)
Theorem acquire_wait_timed_drained (others : M unit) (later : list (M unit))
    (expiry : M unit) (this : pool_id) (time_limit : Z) (w w1 : world) (p p1 : impl) :
  pools w !! this = Some p →
  m_free_objects p ≠ [] →
  time_limit ≠ 0%Z →
  others w = Ok (tt, w1) →
  pools w1 !! this = Some p1 →
  m_free_objects p1 = [] →
  acquire_wait (Schedule (others :: later) expiry) this time_limit w =
    Ok (AcquiredObject nullptr None false,
        World (pools w1) (next_pool w1) (next_addr w1) (log w1 ++ [EvNotifyOne this])).
Proof.
  intros Hp Hfree Htl Hothers Hp1 Hfree1. apply Z.eqb_neq in Htl.
  destruct (m_free_objects p) as [|top rest] eqn:Hfreep; [congruence|].
  unfold acquire_wait. rewrite Htl. cbn [wakeups at_expiry cv_wait_for].
  run. rewrite Hothers.
  destruct later; cbn [cv_wait_for]; run; reflexivity.
Qed.

(** ** The round trip after a resize during a loan *)

(** C7. A pool of three of which one object is acquired, resized to 2 while
    that object is out, and the handle dropped: nothing is lent, three
    objects are free and two are managed.  From there [acquire] followed by
    the destruction of the handle restores [size()] to 3, while [in_use()]
    goes true, false, true: after the round trip it reports a pool in use
    although no object is lent. *)
Theorem roundtrip_in_use_after_resize_while_lent (v : T) (alloc : Alloc) :
  ∃ w',
    (id <- object_pool_count_value 3 v alloc ;;
     h1 <- acquire id ;;
     resize 2 id ;;;
     acquired_object_dtor h1 ;;;
     s0 <- size id ;; m0 <- managed_count id ;; u0 <- in_use id ;;
     h <- acquire id ;;
     s1 <- size id ;; u1 <- in_use id ;;
     acquired_object_dtor h ;;;
     s2 <- size id ;; u2 <- in_use id ;;
     ret (s0, m0, u0, neq_none h, s1, u1, s2, u2)) (World ∅ 0 1 [])
    = Ok ((3, 2, true, true, 2, false, 3, true), w').
Proof. eexists. vm_compute. reflexivity. Qed.

End Pool.

(** * The theorems at concrete pools

    Objects are [nat]s, the allocator is stateless ([unit]), and an
    uninitialised pointer member happens to hold [77]. *)

(** Against C2 as stated: a pool constructed with one object, from which
    [allocate] is called twice, manages two objects with capacity one. *)
Lemma allocate_exceeds_capacity :
  ∃ (w1 w2 w3 : @world nat unit) (h1 h2 : acquired_object) (p : impl),
    object_pool_count_value 1 7%nat tt (World ∅ 0 1 []) = Ok (0, w1)
    ∧ allocate 7%nat 0 w1 = Ok (h1, w2)
    ∧ allocate 7%nat 0 w2 = Ok (h2, w3)
    ∧ pools w3 !! 0 = Some p
    ∧ m_managed_count p = 2
    ∧ m_capacity p = 1
    ∧ ¬ claimed_invariant p.
Proof.
  do 6 eexists.
  split; [vm_compute; reflexivity|].
  split; [vm_compute; reflexivity|].
  split; [vm_compute; reflexivity|].
  split; [vm_compute; reflexivity|].
  split; [reflexivity|]. split; [reflexivity|].
  unfold claimed_invariant. cbn. lia.
Qed.

(** A default-constructed pool after one [push] is reachable. *)
Lemma reachable_invariant_witness :
  ∃ (w1 w2 : @world nat unit),
    object_pool_alloc tt (World ∅ 0 1 []) = Ok (0, w1)
    ∧ run_op 0%nat 77 (OpPush 5%nat) 0 w1 = Ok (tt, w2)
    ∧ reachable 0%nat 77 0 w2
    ∧ ∃ p, pools w2 !! 0 = Some p ∧ claimed_invariant p ∧ pool_invariant p.
Proof.
  do 2 eexists.
  split; [vm_compute; reflexivity|].
  split; [vm_compute; reflexivity|].
  assert (Hreach : reachable (T:=nat) (Alloc:=unit) 0%nat 77 0
    (World (<[0 := Impl 1 4 tt [3; 2; 1] [4]]> ∅) 1 5
       [EvAllocate tt 1; EvAllocate tt 2; EvAllocate tt 3; EvAllocate tt 4;
        EvConstruct 4 5%nat; EvNotifyOne 0])).
  { eapply (reachable_step 0%nat 77 0 (OpPush 5%nat)).
    - eapply (reachable_alloc 0%nat 77 0 tt (World ∅ 0 1 [])). vm_compute. reflexivity.
    - vm_compute. reflexivity.
    - exact I.
    - vm_compute. reflexivity. }
  split; [exact Hreach|].
  exact (reachable_invariant 0%nat 77 0 _ Hreach).
Defined.

(** [acquire] on a pool of three free objects. *)
Lemma acquire_spec_witness :
  let p := Impl 3 3 tt [] [3; 2; 1] in
  let w : @world nat unit := World {[0 := p]} 1 4 [] in
  pools w !! 0 = Some p
  ∧ nonnull_stack (m_free_objects p)
  ∧ acquire 77 0 w =
      Ok (AcquiredObject 3 (Some 0) true,
          World (<[0 := Impl 3 3 tt [] [2; 1]]> (pools w)) 1 4 []).
Proof.
  intros p w.
  assert (Hp : pools w !! 0 = Some p) by reflexivity.
  assert (Hnn : nonnull_stack (m_free_objects p))
    by (repeat constructor; discriminate).
  split; [exact Hp|]. split; [exact Hnn|].
  exact (proj1 (acquire_spec 77 0 w p Hp Hnn)).
Defined.

(** [allocate] on a pool whose only object is lent. *)
Lemma allocate_spec_witness :
  let p := Impl 1 1 tt [] [] in
  let w : @world nat unit := World {[0 := p]} 1 2 [] in
  pools w !! 0 = Some p
  ∧ nonnull_stack (m_free_objects p)
  ∧ m_managed_count p < SIZE_MAX
  ∧ ∃ h w', allocate 9%nat 0 w = Ok (h, w')
            ∧ neq_none h = true
            ∧ m_obj h = 2
            ∧ pools w' = <[0 := Impl 2 1 tt [] []]> (pools w).
Proof.
  intros p w.
  assert (Hp : pools w !! 0 = Some p) by reflexivity.
  assert (Hnn : nonnull_stack (m_free_objects p)) by constructor.
  assert (Hmc : m_managed_count p < SIZE_MAX) by reflexivity.
  split; [exact Hp|]. split; [exact Hnn|]. split; [exact Hmc|].
  destruct (allocate_spec 77 9%nat 0 w p Hp Hnn Hmc)
    as (h & w' & Hrun & Hnone & _ & Hobj & Hpools & _).
  exists h, w'. repeat split; assumption.
Defined.

(** [resize(2)] with five free objects runs three destructors. *)
Lemma resize_shrink_spec_witness :
  let p := Impl 5 5 tt [] [5; 4; 3; 2; 1] in
  let w : @world nat unit := World {[0 := p]} 1 6 [] in
  pools w !! 0 = Some p
  ∧ 2 < stack_size (m_free_objects p)
  ∧ ∃ w', resize 0%nat 2 0 w = Ok (tt, w')
          ∧ pools w' = <[0 := Impl 2 5 tt [3; 4; 5] [2; 1]]> (pools w)
          ∧ log w' = [EvDestroy 5; EvDestroy 4; EvDestroy 3]
          ∧ size 0 w' = Ok (2, w').
Proof.
  intros p w.
  assert (Hp : pools w !! 0 = Some p) by reflexivity.
  assert (Hcount : 2 < stack_size (m_free_objects p)) by reflexivity.
  split; [exact Hp|]. split; [exact Hcount|].
  destruct (resize_shrink_spec 0%nat 2 0%nat 0 w p Hp Hcount)
    as (w' & Hrun & _ & Hpools & Hlog & _ & Hsize & _).
  exists w'. repeat split; assumption.
Defined.

(** The scenario of a pool of three: [size()] goes 3, 2, 3 and [in_use()]
    false, true, false. *)
Lemma acquire_release_roundtrip_witness :
  let p := Impl 3 3 tt [] [3; 2; 1] in
  let w : @world nat unit := World {[0 := p]} 1 4 [] in
  pools w !! 0 = Some p
  ∧ m_free_objects p = 3 :: [2; 1]
  ∧ 3 ≠ nullptr
  ∧ ∃ h w1 w2,
      acquire 77 0 w = Ok (h, w1)
      ∧ size 0 w1 = Ok (2, w1)
      ∧ in_use 0 w1 = Ok (true, w1)
      ∧ acquired_object_dtor h w1 = Ok (tt, w2)
      ∧ size 0 w2 = Ok (3, w2)
      ∧ in_use 0 w2 = Ok (false, w2).
Proof.
  intros p w.
  assert (Hp : pools w !! 0 = Some p) by reflexivity.
  assert (Hfree : m_free_objects p = 3 :: [2; 1]) by reflexivity.
  assert (Htop : 3 ≠ nullptr) by discriminate.
  split; [exact Hp|]. split; [exact Hfree|]. split; [exact Htop|].
  destruct (acquire_release_roundtrip 77 0 w p 3 [2; 1] Hp Hfree Htop)
    as (h & w1 & w2 & Hacq & Hsize1 & Hdrop & _ & _ & Hsize2 & _ & Huse).
  destruct (Huse eq_refl) as (_ & Huse1 & Huse2).
  exists h, w1, w2. repeat split; assumption.
Defined.

(** A default-constructed pool swapped with a pool of one object: after the
    swap the first reports capacity 1 and still holds its four raw slots,
    the second reports capacity 4 and holds none. *)
Lemma swap_spec_witness :
  let a := Impl 0 4 tt [4; 3; 2; 1] [] in
  let b := Impl 1 1 tt [] [5] in
  let w : @world nat unit := World (<[1 := b]> {[0 := a]}) 2 6 [] in
  0 ≠ 1
  ∧ pools w !! 0 = Some a
  ∧ pools w !! 1 = Some b
  ∧ ∃ w', swap 0 1 w = Ok (tt, w')
          ∧ pools w' !! 0 = Some (Impl 1 1 tt [4; 3; 2; 1] [5])
          ∧ pools w' !! 1 = Some (Impl 0 4 tt [] []).
Proof.
  intros a b w.
  assert (Hne : (0 : pool_id) ≠ 1) by discriminate.
  assert (Ha : pools w !! 0 = Some a) by reflexivity.
  assert (Hb : pools w !! 1 = Some b) by reflexivity.
  split; [exact Hne|]. split; [exact Ha|]. split; [exact Hb|].
  destruct (swap_spec 0 1 w a b Hne Ha Hb) as (w' & Hrun & H0 & H1 & _).
  exists w'. repeat split; assumption.
Defined.

(** * The further properties at concrete pools *)

(** [reserve(6)] on a default-constructed pool. *)
Lemma reserve_spec_witness :
  let p := Impl 0 4 tt [4; 3; 2; 1] [] in
  let w : @world nat unit := World {[0 := p]} 1 5 [] in
  pools w !! 0 = Some p
  ∧ reserve 0 6 w =
      Ok (tt, World (<[0 := Impl 0 6 tt [6; 5; 4; 3; 2; 1] []]> (pools w)) 1 7
                    [EvAllocate tt 5; EvAllocate tt 6]).
Proof.
  intros p w.
  assert (Hp : pools w !! 0 = Some p) by reflexivity.
  split; [exact Hp|]. exact (reserve_spec 0 6 w p Hp).
Defined.

(** More objects free than managed: [in_use()] is true. *)
Lemma in_use_spec_witness :
  let p := Impl 2 3 tt [] [3; 2; 1] in
  let w : @world nat unit := World {[0 := p]} 1 4 [] in
  pools w !! 0 = Some p
  ∧ m_managed_count p < size_modulus
  ∧ stack_size (m_free_objects p) < size_modulus
  ∧ in_use 0 w = Ok (true, w).
Proof.
  intros p w.
  assert (Hp : pools w !! 0 = Some p) by reflexivity.
  assert (Hmc : m_managed_count p < size_modulus) by reflexivity.
  assert (Hsize : stack_size (m_free_objects p) < size_modulus) by reflexivity.
  split; [exact Hp|]. split; [exact Hmc|]. split; [exact Hsize|].
  exact (in_use_spec 0 w p Hp Hmc Hsize).
Defined.

(** Dropping the handle of object 3 of a pool of three. *)
Lemma handle_release_spec_witness :
  let h := AcquiredObject 3 (Some 0) true in
  let p := Impl 3 3 tt [] [2; 1] in
  let w : @world nat unit := World {[0 := p]} 1 4 [] in
  m_is_initialized h = true
  ∧ m_pool h = Some 0
  ∧ m_obj h ≠ nullptr
  ∧ pools w !! 0 = Some p
  ∧ acquired_object_dtor h w =
      Ok (tt, World (<[0 := Impl 3 3 tt [] [3; 2; 1]]> (pools w)) 1 4 [EvNotifyOne 0]).
Proof.
  intros h p w.
  assert (Hobj : m_obj h ≠ nullptr) by discriminate.
  assert (Hp : pools w !! 0 = Some p) by reflexivity.
  split; [reflexivity|]. split; [reflexivity|]. split; [exact Hobj|]. split; [exact Hp|].
  exact (proj1 (handle_release_spec h 0 w p eq_refl eq_refl Hobj Hp)).
Defined.

(** Dropping an empty handle. *)
Lemma handle_release_skips_witness :
  let h := AcquiredObject 77 None false in
  let w : @world nat unit := World {[0 := Impl 3 3 tt [] [3; 2; 1]]} 1 4 [] in
  (m_is_initialized h = false
   ∨ m_obj h = nullptr
   ∨ m_pool h = None
   ∨ (∃ id, m_pool h = Some id ∧ pools w !! id = None))
  ∧ acquired_object_dtor h w = Ok (tt, w).
Proof.
  intros h w.
  assert (Hh : m_is_initialized h = false
               ∨ m_obj h = nullptr
               ∨ m_pool h = None
               ∨ (∃ id, m_pool h = Some id ∧ pools w !! id = None))
    by (left; reflexivity).
  split; [exact Hh|]. exact (proj1 (handle_release_skips h w Hh)).
Defined.

(** Assigning the handle of object 2 to the handle of object 3, and the
    handle of object 3 to itself. *)
Lemma handle_assign_spec_witness :
  let h3 := AcquiredObject 3 (Some 0) true in
  let h2 := AcquiredObject 2 (Some 0) true in
  let hs : gmap handle_ref acquired_object := <[1 := h2]> {[0 := h3]} in
  let p := Impl 3 3 tt [] [1] in
  let w : @world nat unit := World {[0 := p]} 1 4 [] in
  let w' : @world nat unit :=
    World (<[0 := Impl 3 3 tt [] [3; 1]]> (pools w)) 1 4 [EvNotifyOne 0] in
  hs !! 0 = Some h3
  ∧ hs !! 1 = Some h2
  ∧ m_is_initialized h3 = true
  ∧ m_pool h3 = Some 0
  ∧ m_obj h3 ≠ nullptr
  ∧ pools w !! 0 = Some p
  ∧ operator_move_assign 0 1 hs w =
      Ok (<[1 := AcquiredObject nullptr None false]> (<[0 := h2]> hs), w')
  ∧ operator_move_assign 0 0 hs w =
      Ok (<[0 := AcquiredObject nullptr (Some 0) false]> hs, w').
Proof.
  intros h3 h2 hs p w w'.
  assert (H0 : hs !! 0 = Some h3) by reflexivity.
  assert (H1 : hs !! 1 = Some h2) by reflexivity.
  assert (Hobj : m_obj h3 ≠ nullptr) by discriminate.
  assert (Hp : pools w !! 0 = Some p) by reflexivity.
  split; [exact H0|]. split; [exact H1|]. split; [reflexivity|]. split; [reflexivity|].
  split; [exact Hobj|]. split; [exact Hp|].
  split.
  - exact (handle_assign_spec 0 1 hs h3 h2 0 w p H0 H1 eq_refl eq_refl Hobj Hp).
  - exact (handle_assign_spec 0 0 hs h3 h3 0 w p H0 H0 eq_refl eq_refl Hobj Hp).
Defined.

(** The first [push] into a default-constructed pool. *)
Lemma push_not_full_spec_witness :
  let p := Impl 0 4 tt [4; 3; 2; 1] [] in
  let w : @world nat unit := World {[0 := p]} 1 5 [] in
  pools w !! 0 = Some p
  ∧ m_managed_count p ≠ m_capacity p
  ∧ push 9%nat 0 w =
      Ok (tt, World (<[0 := Impl 1 4 tt [3; 2; 1] [4]]> (pools w)) 1 5
                    [EvConstruct 4 9%nat; EvNotifyOne 0]).
Proof.
  intros p w.
  assert (Hp : pools w !! 0 = Some p) by reflexivity.
  assert (Hfull : m_managed_count p ≠ m_capacity p) by discriminate.
  split; [exact Hp|]. split; [exact Hfull|].
  exact (proj1 (push_not_full_spec 9%nat 0 w p Hp Hfull)).
Defined.

(** [push] then [acquire] on a default-constructed pool. *)
Lemma push_then_acquire_witness :
  let p := Impl 0 4 tt [4; 3; 2; 1] [] in
  let w : @world nat unit := World {[0 := p]} 1 5 [] in
  let w1 : @world nat unit :=
    World (<[0 := Impl 1 4 tt [3; 2; 1] [4]]> (pools w)) 1 5
          [EvConstruct 4 9%nat; EvNotifyOne 0] in
  pools w !! 0 = Some p
  ∧ nonnull_stack (m_allocated_space p)
  ∧ push 9%nat 0 w = Ok (tt, w1)
  ∧ ∃ w2, acquire 77 0 w1 = Ok (AcquiredObject 4 (Some 0) true, w2).
Proof.
  intros p w w1.
  assert (Hp : pools w !! 0 = Some p) by reflexivity.
  assert (Hnn : nonnull_stack (m_allocated_space p)) by (repeat constructor; discriminate).
  assert (Hpush : push 9%nat 0 w = Ok (tt, w1)) by reflexivity.
  split; [exact Hp|]. split; [exact Hnn|]. split; [exact Hpush|].
  destruct (push_then_acquire 77 9%nat 0 w w1 p Hp Hnn Hpush)
    as (obj & w2 & p2 & Hacq & _).
  exists w2. rewrite Hacq. vm_compute in Hacq.
  injection Hacq as Hobj _. rewrite <- Hobj. reflexivity.
Defined.

(** [resize(6)] on a default-constructed pool: two slots are allocated, six
    objects constructed. *)
Lemma resize_grow_spec_witness :
  let p := Impl 0 4 tt [4; 3; 2; 1] [] in
  let w : @world nat unit := World {[0 := p]} 1 5 [] in
  pools w !! 0 = Some p
  ∧ stack_size (m_free_objects p) < 6
  ∧ N.min 6 (m_capacity p)
      ≤ stack_size (m_free_objects p) + stack_size (m_allocated_space p)
  ∧ ∃ w', resize_value 6 9%nat 0 w = Ok (tt, w')
          ∧ pools w' !! 0 = Some (Impl 6 6 tt [] [1; 2; 3; 4; 5; 6]).
Proof.
  intros p w.
  assert (Hp : pools w !! 0 = Some p) by reflexivity.
  assert (Hgrow : stack_size (m_free_objects p) < 6) by reflexivity.
  assert (Hcover : N.min 6 (m_capacity p)
                   ≤ stack_size (m_free_objects p) + stack_size (m_allocated_space p))
    by (vm_compute; discriminate).
  split; [exact Hp|]. split; [exact Hgrow|]. split; [exact Hcover|].
  destruct (resize_grow_spec 0%nat 6 9%nat 0 w p Hp Hgrow Hcover)
    as (w' & added & rest & Hrun & _).
  exists w'. split; [exact Hrun|].
  vm_compute in Hrun. injection Hrun as <-. reflexivity.
Defined.

(** [resize(3)] on a pool of three while one object is lent. *)
Lemma resize_grow_undefined_witness :
  let p := Impl 3 3 tt [] [2; 1] in
  let w : @world nat unit := World {[0 := p]} 1 4 [] in
  pools w !! 0 = Some p
  ∧ stack_size (m_free_objects p) < 3
  ∧ stack_size (m_free_objects p) + stack_size (m_allocated_space p)
      < N.min 3 (m_capacity p)
  ∧ resize 0%nat 3 0 w = Undefined.
Proof.
  intros p w.
  assert (Hp : pools w !! 0 = Some p) by reflexivity.
  assert (Hgrow : stack_size (m_free_objects p) < 3) by reflexivity.
  assert (Hshort : stack_size (m_free_objects p) + stack_size (m_allocated_space p)
                   < N.min 3 (m_capacity p)) by reflexivity.
  split; [exact Hp|]. split; [exact Hgrow|]. split; [exact Hshort|].
  exact (proj2 (resize_grow_undefined 0%nat 3 0%nat 0 w p Hp Hgrow Hshort)).
Defined.

(** [allocate] on a pool whose only object is lent, then release. *)
Lemma allocate_release_recycles_witness :
  let p := Impl 1 1 tt [] [] in
  let w : @world nat unit := World {[0 := p]} 1 2 [] in
  pools w !! 0 = Some p
  ∧ m_free_objects p = []
  ∧ ∃ h w1 w2 w3,
      allocate 9%nat 0 w = Ok (h, w1)
      ∧ m_obj h = 2
      ∧ acquired_object_dtor h w1 = Ok (tt, w2)
      ∧ acquire 77 0 w2 = Ok (h, w3).
Proof.
  intros p w.
  assert (Hp : pools w !! 0 = Some p) by reflexivity.
  assert (Hfree : m_free_objects p = []) by reflexivity.
  split; [exact Hp|]. split; [exact Hfree|].
  destruct (allocate_release_recycles 77 9%nat 0 w p Hp Hfree)
    as (h & w1 & w2 & w3 & Halloc & Hobj & Hdrop & _ & Hacq & _).
  exists h, w1, w2, w3. repeat split; assumption.
Defined.

(** Two swaps of a default-constructed pool and a pool of one. *)
Lemma swap_involution_witness :
  let a := Impl 0 4 tt [4; 3; 2; 1] [] in
  let b := Impl 1 1 tt [] [5] in
  let w : @world nat unit := World (<[1 := b]> {[0 := a]}) 2 6 [] in
  0 ≠ 1
  ∧ pools w !! 0 = Some a
  ∧ pools w !! 1 = Some b
  ∧ bind (swap 0 1) (λ _, swap 0 1) w = Ok (tt, w).
Proof.
  intros a b w.
  assert (Hne : (0 : pool_id) ≠ 1) by discriminate.
  assert (Ha : pools w !! 0 = Some a) by reflexivity.
  assert (Hb : pools w !! 1 = Some b) by reflexivity.
  split; [exact Hne|]. split; [exact Ha|]. split; [exact Hb|].
  exact (swap_involution 0 1 w a b Hne Ha Hb).
Defined.

(** [acquire_wait()] with a free object. *)
Lemma acquire_wait_untimed_immediate_witness :
  let p := Impl 3 3 tt [] [3; 2; 1] in
  let w : @world nat unit := World {[0 := p]} 1 4 [] in
  pools w !! 0 = Some p
  ∧ m_free_objects p = 3 :: [2; 1]
  ∧ 3 ≠ nullptr
  ∧ acquire_wait 77 (Schedule [] (ret tt)) 0 0%Z w =
      Ok (AcquiredObject 3 (Some 0) true,
          World (<[0 := Impl 3 3 tt [] [2; 1]]> (pools w)) 1 4 [EvNotifyOne 0]).
Proof.
  intros p w.
  assert (Hp : pools w !! 0 = Some p) by reflexivity.
  assert (Hfree : m_free_objects p = 3 :: [2; 1]) by reflexivity.
  assert (Htop : 3 ≠ nullptr) by discriminate.
  split; [exact Hp|]. split; [exact Hfree|]. split; [exact Htop|].
  exact (acquire_wait_untimed_immediate 77 (Schedule [] (ret tt)) 0 w p 3 [2; 1]
           Hp Hfree Htop).
Defined.

(** [acquire_wait()] on a pool whose only object stays lent, with one
    spurious wake-up. *)
Lemma acquire_wait_untimed_blocks_witness :
  let p := Impl 1 1 tt [] [] in
  let w : @world nat unit := World {[0 := p]} 1 2 [] in
  let env := Schedule [ret tt] (ret tt) in
  pools w !! 0 = Some p
  ∧ m_free_objects p = []
  ∧ Forall (keeps_free_empty 0) (wakeups env)
  ∧ acquire_wait 77 env 0 0%Z w = Blocked.
Proof.
  intros p w env.
  assert (Hp : pools w !! 0 = Some p) by reflexivity.
  assert (Hfree : m_free_objects p = []) by reflexivity.
  assert (Hrounds : Forall (keeps_free_empty 0) (wakeups env)).
  { repeat constructor. intros w0 p0 Hp0 Hfree0. exists w0, p0.
    split; [reflexivity|]. split; assumption. }
  split; [exact Hp|]. split; [exact Hfree|]. split; [exact Hrounds|].
  exact (acquire_wait_untimed_blocks 77 env 0 w p Hp Hfree Hrounds).
Defined.

(** [acquire_wait()] while another thread returns object 1. *)
Lemma acquire_wait_untimed_gets_returned_witness :
  let p := Impl 1 1 tt [] [] in
  let w : @world nat unit := World {[0 := p]} 1 2 [] in
  pools w !! 0 = Some p
  ∧ m_free_objects p = []
  ∧ 1 ≠ nullptr
  ∧ acquire_wait 77 (Schedule [return_object 0 1] (ret tt)) 0 0%Z w =
      Ok (AcquiredObject 1 (Some 0) true,
          World (pools w) 1 2 [EvNotifyOne 0; EvNotifyOne 0]).
Proof.
  intros p w.
  assert (Hp : pools w !! 0 = Some p) by reflexivity.
  assert (Hfree : m_free_objects p = []) by reflexivity.
  assert (Hobj : 1 ≠ nullptr) by discriminate.
  split; [exact Hp|]. split; [exact Hfree|]. split; [exact Hobj|].
  exact (acquire_wait_untimed_gets_returned 77 0 1 [] (ret tt) w p Hp Hfree Hobj).
Defined.

(** The destructor of a pool with two free objects and two raw slots. *)
Lemma impl_dtor_spec_witness :
  let p := Impl 2 4 tt [2; 1] [4; 3] in
  let w : @world nat unit := World {[0 := p]} 1 5 [] in
  pools w !! 0 = Some p
  ∧ impl_dtor 0 w =
      Ok ([3; 4; 2; 1],
          World (<[0 := Impl 2 4 tt [] []]> (pools w)) 1 5 [EvDestroy 4; EvDestroy 3]).
Proof.
  intros p w.
  assert (Hp : pools w !! 0 = Some p) by reflexivity.
  split; [exact Hp|]. exact (proj1 (impl_dtor_spec 0 w p Hp)).
Defined.

(** One [acquire] of a client that holds nothing. *)
Lemma client_step_ownership_witness :
  let p := Impl 3 3 tt [] [3; 2; 1] in
  let w : @world nat unit := World {[0 := p]} 1 4 [] in
  let h := AcquiredObject 3 (Some 0) true in
  let w' : @world nat unit := World (<[0 := Impl 3 3 tt [] [2; 1]]> (pools w)) 1 4 [] in
  pools w !! 0 = Some p
  ∧ handles_of 0 []
  ∧ client_step 0%nat 77 0 ClAcquire [] w = Ok ([h], w')
  ∧ ∃ p', pools w' !! 0 = Some p' ∧ owned [h] p' ≡ₚ owned [] p.
Proof.
  intros p w h w'.
  assert (Hp : pools w !! 0 = Some p) by reflexivity.
  assert (Hhs : handles_of 0 []) by constructor.
  assert (Hstep : client_step 0%nat 77 0 ClAcquire [] w = Ok ([h], w')) by reflexivity.
  split; [exact Hp|]. split; [exact Hhs|]. split; [exact Hstep|].
  destruct (client_step_ownership 0%nat 77 0 ClAcquire [] [h] w w' p Hp Hhs Hstep)
    as (p' & n & Hp' & Hnext & Hperm & _).
  exists p'. split; [exact Hp'|].
  destruct n as [|n]; [exact Hperm|].
  exfalso. unfold w, w' in Hnext. cbn [next_addr advance] in Hnext.
  pose proof (advance_le n (Pos.succ 4)). lia.
Defined.

(** A pool of two, both objects acquired. *)
Lemma client_reachable_exclusive_witness :
  let h1 := AcquiredObject 1 (Some 0) true in
  let h2 := AcquiredObject 2 (Some 0) true in
  let w : @world nat unit :=
    World (<[0 := Impl 2 2 tt [] []]> ∅) 1 3
          [EvAllocate tt 1; EvConstruct 1 9%nat; EvAllocate tt 2; EvConstruct 2 9%nat] in
  client_reachable 0%nat 77 any_call 0 [h1; h2] w
  ∧ exclusive 0 [h1; h2] w.
Proof.
  intros h1 h2 w.
  assert (Hreach : client_reachable 0%nat 77 any_call 0 [h1; h2] w).
  { eapply (client_next 0%nat 77 any_call 0 ClAcquire).
    - eapply (client_next 0%nat 77 any_call 0 ClAcquire).
      + eapply (client_new_count_value 0%nat 77 any_call 0 2 9%nat tt (World ∅ 0 1 [])).
        vm_compute. reflexivity.
      + vm_compute. reflexivity.
      + exact I.
      + vm_compute. reflexivity.
    - vm_compute. reflexivity.
    - exact I.
    - vm_compute. reflexivity. }
  split; [exact Hreach|].
  exact (client_reachable_exclusive 0%nat 77 0 [h1; h2] w Hreach).
Defined.

(** A pool of two, one object acquired. *)
Lemma client_reachable_conserved_witness :
  let h := AcquiredObject 2 (Some 0) true in
  let w : @world nat unit :=
    World (<[0 := Impl 2 2 tt [] [1]]> ∅) 1 3
          [EvAllocate tt 1; EvConstruct 1 9%nat; EvAllocate tt 2; EvConstruct 2 9%nat] in
  client_reachable 0%nat 77 counting_scope 0 [h] w
  ∧ ∃ p, pools w !! 0 = Some p
         ∧ m_managed_count p = stack_size (m_free_objects p) + stack_size (lent [h]).
Proof.
  intros h w.
  assert (Hreach : client_reachable 0%nat 77 counting_scope 0 [h] w).
  { eapply (client_next 0%nat 77 counting_scope 0 ClAcquire).
    - eapply (client_new_count_value 0%nat 77 counting_scope 0 2 9%nat tt (World ∅ 0 1 [])).
      vm_compute. reflexivity.
    - vm_compute. reflexivity.
    - exact I.
    - vm_compute. reflexivity. }
  split; [exact Hreach|].
  exact (client_reachable_conserved 0%nat 77 0 [h] w Hreach).
Defined.

(** The same client: [in_use()] is true. *)
Lemma in_use_iff_lent_witness :
  let h := AcquiredObject 2 (Some 0) true in
  let p := Impl 2 2 tt [] [1] in
  let w : @world nat unit :=
    World (<[0 := p]> ∅) 1 3
          [EvAllocate tt 1; EvConstruct 1 9%nat; EvAllocate tt 2; EvConstruct 2 9%nat] in
  client_reachable 0%nat 77 counting_scope 0 [h] w
  ∧ pools w !! 0 = Some p
  ∧ m_managed_count p < size_modulus
  ∧ in_use 0 w = Ok (true, w).
Proof.
  intros h p w.
  assert (Hreach : client_reachable 0%nat 77 counting_scope 0 [h] w).
  { eapply (client_next 0%nat 77 counting_scope 0 ClAcquire).
    - eapply (client_new_count_value 0%nat 77 counting_scope 0 2 9%nat tt (World ∅ 0 1 [])).
      vm_compute. reflexivity.
    - vm_compute. reflexivity.
    - exact I.
    - vm_compute. reflexivity. }
  assert (Hp : pools w !! 0 = Some p) by reflexivity.
  assert (Hmc : m_managed_count p < size_modulus) by reflexivity.
  split; [exact Hreach|]. split; [exact Hp|]. split; [exact Hmc|].
  exact (in_use_iff_lent 0%nat 77 0 [h] w p Hreach Hp Hmc).
Defined.

(** [acquire_wait(50ms)] on a pool whose only object is lent, while the
    other thread is about to return it. *)
Lemma acquire_wait_empty_returns_none_witness :
  let p := Impl 1 1 tt [] [] in
  let w : @world nat unit := World {[0 := p]} 1 2 [] in
  pools w !! 0 = Some p
  ∧ m_free_objects p = []
  ∧ 50%Z ≠ 0%Z
  ∧ acquire_wait 77 (Schedule [return_object 0 1] (ret tt)) 0 50%Z w =
      Ok (AcquiredObject nullptr None false, World (pools w) 1 2 [EvNotifyOne 0]).
Proof.
  intros p w.
  assert (Hp : pools w !! 0 = Some p) by reflexivity.
  assert (Hfree : m_free_objects p = []) by reflexivity.
  assert (Htl : 50%Z ≠ 0%Z) by discriminate.
  split; [exact Hp|]. split; [exact Hfree|]. split; [exact Htl|].
  exact (acquire_wait_empty_returns_none 77 (Schedule [return_object 0 1] (ret tt))
           0 50%Z w p Hp Hfree Htl).
Defined.

(** [acquire_wait(50ms)] with a free object and no other thread. *)
Lemma acquire_wait_timed_quiet_witness :
  let p := Impl 1 1 tt [] [1] in
  let w : @world nat unit := World {[0 := p]} 1 2 [] in
  pools w !! 0 = Some p
  ∧ m_free_objects p = 1 :: []
  ∧ 1 ≠ nullptr
  ∧ 50%Z ≠ 0%Z
  ∧ acquire_wait 77 (Schedule [] (ret tt)) 0 50%Z w =
      Ok (AcquiredObject 1 (Some 0) true,
          World (<[0 := Impl 1 1 tt [] []]> (pools w)) 1 2 [EvNotifyOne 0]).
Proof.
  intros p w.
  assert (Hp : pools w !! 0 = Some p) by reflexivity.
  assert (Hfree : m_free_objects p = 1 :: []) by reflexivity.
  assert (Htop : 1 ≠ nullptr) by discriminate.
  assert (Htl : 50%Z ≠ 0%Z) by discriminate.
  split; [exact Hp|]. split; [exact Hfree|]. split; [exact Htop|]. split; [exact Htl|].
  exact (acquire_wait_timed_quiet 77 0 50%Z w p 1 [] Hp Hfree Htop Htl).
Defined.

(** The fifth [push] into a default-constructed pool. *)
Lemma push_full_doubles_witness :
  let p := Impl 4 4 tt [] [1; 2; 3; 4] in
  let w : @world nat unit := World {[0 := p]} 1 5 [] in
  pools w !! 0 = Some p
  ∧ m_managed_count p = m_capacity p
  ∧ 0 < m_capacity p
  ∧ 2 * m_capacity p < size_modulus
  ∧ push 9%nat 0 w =
      Ok (tt, World (<[0 := Impl 5 8 tt [7; 6; 5] [8; 1; 2; 3; 4]]> (pools w)) 1 9
                    [EvAllocate tt 5; EvAllocate tt 6; EvAllocate tt 7; EvAllocate tt 8;
                     EvConstruct 8 9%nat; EvNotifyOne 0]).
Proof.
  intros p w.
  assert (Hp : pools w !! 0 = Some p) by reflexivity.
  assert (Hfull : m_managed_count p = m_capacity p) by reflexivity.
  assert (Hpos : 0 < m_capacity p) by reflexivity.
  assert (Hsmall : 2 * m_capacity p < size_modulus) by reflexivity.
  split; [exact Hp|]. split; [exact Hfull|]. split; [exact Hpos|]. split; [exact Hsmall|].
  destruct (push_full_doubles 9%nat 0 w p Hp Hfull Hpos Hsmall)
    as (obj & rest & Hslots & Hpush).
  rewrite Hpush. vm_compute in Hslots. injection Hslots as <- <-. reflexivity.
Defined.

(** [acquire] on a default-constructed pool after one [push]. *)
Lemma acquire_returns_on_reachable_witness :
  let w : @world nat unit :=
    World (<[0 := Impl 1 4 tt [3; 2; 1] [4]]> ∅) 1 5
          [EvAllocate tt 1; EvAllocate tt 2; EvAllocate tt 3; EvAllocate tt 4;
           EvConstruct 4 5%nat; EvNotifyOne 0] in
  reachable 0%nat 77 0 w
  ∧ ∃ h w', acquire 77 0 w = Ok (h, w').
Proof.
  intros w.
  assert (Hreach : reachable 0%nat 77 0 w).
  { eapply (reachable_step 0%nat 77 0 (OpPush 5%nat)).
    - eapply (reachable_alloc 0%nat 77 0 tt (World ∅ 0 1 [])). vm_compute. reflexivity.
    - vm_compute. reflexivity.
    - exact I.
    - vm_compute. reflexivity. }
  split; [exact Hreach|].
  exact (acquire_returns_on_reachable 0%nat 77 0 w Hreach).
Defined.


(** [acquire_wait(50ms)] with one free object that another thread acquires
    during the wait. *)
Lemma acquire_wait_timed_drained_witness :
  let p := Impl 1 1 tt [] [1] in
  let p1 := Impl 1 1 tt [] [] in
  let w : @world nat unit := World {[0 := p]} 1 2 [] in
  let w1 : @world nat unit := World (<[0 := p1]> (pools w)) 1 2 [] in
  let others : @M nat unit unit := bind (acquire 77 0) (λ _, ret tt) in
  pools w !! 0 = Some p
  ∧ m_free_objects p ≠ []
  ∧ 50%Z ≠ 0%Z
  ∧ others w = Ok (tt, w1)
  ∧ pools w1 !! 0 = Some p1
  ∧ m_free_objects p1 = []
  ∧ acquire_wait 77 (Schedule [others] (ret tt)) 0 50%Z w =
      Ok (AcquiredObject nullptr None false, World (pools w1) 1 2 [EvNotifyOne 0]).
Proof.
  intros p p1 w w1 others.
  assert (Hp : pools w !! 0 = Some p) by reflexivity.
  assert (Hfree : m_free_objects p ≠ []) by discriminate.
  assert (Htl : 50%Z ≠ 0%Z) by discriminate.
  assert (Hothers : others w = Ok (tt, w1)) by reflexivity.
  assert (Hp1 : pools w1 !! 0 = Some p1) by reflexivity.
  assert (Hfree1 : m_free_objects p1 = []) by reflexivity.
  split; [exact Hp|]. split; [exact Hfree|]. split; [exact Htl|].
  split; [exact Hothers|]. split; [exact Hp1|]. split; [exact Hfree1|].
  exact (acquire_wait_timed_drained 77 others [] (ret tt) 0 50%Z w w1 p p1
           Hp Hfree Htl Hothers Hp1 Hfree1).
Defined.
